(** * Mechanical_Characters: the assembly solver and the design-space explorer

    A shallow embedding of [assembly.py]: the constraint aggregation and the
    equilibrium solve of [Assembly], the fixed topology built by [AssemblyA],
    the feasibility validator, the curve tracer, the dissimilarity filter, the
    perturbation functions and the retry loops of the explorer.

    Conventions of the embedding.
    - Python floats are read as exact rationals ([Q]); [round(x, 2)] is
      rounding to the nearest hundredth, ties to the even hundredth.  The
      two perturbation functions of extents are given a second time on
      binary64 floats ([Float64]), where the order of flooring and rounding
      decides the result.
    - A Python [dict] is an association list in insertion order with distinct
      keys; [d[k] = v] is [PyDict.set], [d.update(e)] is [PyDict.update].
    - [random.uniform(a, b)] is [a + (b - a) * u] for a draw [u]; the draws
      come from a stream that the sampling code consumes in program order.
    - A call that can raise returns an [Outcome]; a [while] loop takes fuel
      and answers [OutOfFuel] when the fuel does not suffice.
    - What lives in modules outside [assembly.py] (the residual functions of
      the connections, the minimizer of scipy, the poses of the parts) is a
      parameter of the definitions that use it. *)

From Stdlib Require Import List ZArith QArith Qround Qabs Lia Lqa Bool SpecFloat.
Import ListNotations.

Set Implicit Arguments.

(* ================================================================= *)
(** ** Outcomes of Python calls *)

(** Exceptions the code can raise, and [SearchExhausted], which the
    specification names and no statement of [assembly.py] raises. *)
Inductive exn : Type :=
| TypeError
| IndexError
| KeyError
| AssemblyFailedToInit
| SearchExhausted.

Inductive Outcome (A : Type) : Type :=
| Ok (a : A)
| Raise (e : exn)
| OutOfFuel.

Arguments Ok {A} a.
Arguments Raise {A} e.
Arguments OutOfFuel {A}.

Definition bind {A B : Type} (m : Outcome A) (k : A -> Outcome B) : Outcome B :=
  match m with
  | Ok a => k a
  | Raise e => Raise e
  | OutOfFuel => OutOfFuel
  end.

Declare Scope outcome_scope.
Delimit Scope outcome_scope with outcome.
Notation "' p <- m ;; k" := (bind m (fun p => k))
  (at level 61, p pattern, m at next level, right associativity) : outcome_scope.
Notation "x <- m ;; k" := (bind m (fun x => k))
  (at level 61, m at next level, right associativity) : outcome_scope.

(* ================================================================= *)
(** ** Numbers *)

Module PyNum.

Definition Qltb (a b : Q) : bool := negb (Qle_bool b a).

(** [max(a, b)] of Python: the first argument unless the second is greater. *)
Definition py_max (a b : Q) : Q := if Qltb a b then b else a.

(** The integer nearest to [x], ties to the even one. *)
Definition round_half_even (x : Q) : Z :=
  let n := Qnum x in
  let d := Zpos (Qden x) in
  let q := (n / d)%Z in
  let r := (n mod d)%Z in
  match (2 * r ?= d)%Z with
  | Lt => q
  | Gt => (q + 1)%Z
  | Eq => if Z.even q then q else (q + 1)%Z
  end.

(** [round(x, 2)]. *)
Definition py_round2 (x : Q) : Q := round_half_even (x * 100) # 100.

(** [round(d ** 0.5, 2)] for [d >= 0]: the hundredth nearest to the square
    root of [d], ties to the even hundredth.  With [m = 40000 * d], the root
    of [m] is twice the root of [10000 * d]. *)
Definition py_round2_sqrt (d : Q) : Q :=
  let m := (40000 * d)%Q in
  let f := Qfloor m in
  let s := Z.sqrt f in
  let tie := (Qeq_bool (inject_Z f) m && (s * s =? f)%Z && Z.odd s)%bool in
  let k := (s / 2)%Z in
  (if tie then (if Z.even k then k else (k + 1)%Z) else ((s + 1) / 2)%Z) # 100.

(** [random.uniform(a, b)] at the draw [u] of [random.random()]. *)
Definition uniform (a b u : Q) : Q := a + (b - a) * u.

End PyNum.
Import PyNum.

(* ================================================================= *)
(** ** Points, configurations and the objects of [AssemblyA] *)

(** [Point(x, y, z)] of the configuration module, and a three-entry array. *)
Record Point : Type := mkPoint { px : Q; py : Q; pz : Q }.

Record Alignment : Type := mkAlignment { al_alpha : Q; al_beta : Q; al_gamma : Q }.

Definition vector (p : Point) : list Q := [px p; py p; pz p].

Record Vec3 : Type := mkVec3 { v0 : Q; v1 : Q; v2 : Q }.

Definition Curve : Type := list Vec3.

(** The declarative configuration: the keys [return_prototype] fills. *)
Record Config : Type := mkConfig {
  gear1_radius : Q;                     (* config["gear1_init_parameters"]["radius"] *)
  stick1_length : Q;                    (* config["stick1_init_parameters"]["length"] *)
  gear2_radius : Q;
  stick2_length : Q;
  gear1_fixed_position : Point;
  gear2_fixed_position : Point;
  gear1_fixed_orientation : Alignment;
  gear2_fixed_orientation : Alignment;
  gear1_stick1_joint_location : Vec3;
  stick1_gear1_joint_location : Vec3;
  gear2_stick2_joint_location : Vec3;
  stick2_gear2_joint_location : Vec3;
  stick1_stick2_joint_location : Vec3;
  stick2_stick1_joint_location : Vec3
}.

(** Parts, as [_parse_config] constructs them. *)
Inductive Component : Type :=
| Gear (radius : Q)
| Stick (length : Q).

(** What a connection is attached to: the actuator, or [self.components[i]]. *)
Inductive PartRef : Type :=
| TheActuator
| Comp (i : nat).

Inductive Connection : Type :=
| PhaseConnection (a b : PartRef)
| FixedConnection (c : PartRef) (position : Point) (orientation : Alignment)
| PinConnection (a b : PartRef) (joint_a joint_b : Vec3).

(** The attributes [AssemblyA._parse_config] sets before it calls the
    constructor of the base class. *)
Record AssemblyA : Type := mkAssemblyA {
  config : Config;
  components : list Component;
  connections : list Connection;
  red_point_component : nat;
  anchor : list Q
}.

Definition gear1 : PartRef := Comp 0.
Definition link1 : PartRef := Comp 1.
Definition gear2 : PartRef := Comp 2.
Definition link2 : PartRef := Comp 3.

Definition parse_components (cfg : Config) : list Component :=
  [Gear (gear1_radius cfg); Stick (stick1_length cfg);
   Gear (gear2_radius cfg); Stick (stick2_length cfg)].

Definition parse_connections (cfg : Config) : list Connection :=
  [PhaseConnection TheActuator (Comp 0);
   PhaseConnection (Comp 0) (Comp 2);
   FixedConnection (Comp 0) (gear1_fixed_position cfg) (gear1_fixed_orientation cfg);
   FixedConnection (Comp 0) (gear2_fixed_position cfg) (gear2_fixed_orientation cfg);
   PinConnection (Comp 0) (Comp 1)
     (gear1_stick1_joint_location cfg) (stick1_gear1_joint_location cfg);
   PinConnection (Comp 2) (Comp 3)
     (gear2_stick2_joint_location cfg) (stick2_gear2_joint_location cfg);
   PinConnection (Comp 1) (Comp 3)
     (stick1_stick2_joint_location cfg) (stick1_stick2_joint_location cfg)].

Fixpoint zip_with {A B C : Type} (f : A -> B -> C) (l : list A) (m : list B) : list C :=
  match l, m with
  | a :: l', b :: m' => f a b :: zip_with f l' m'
  | _, _ => []
  end.

Definition parse_anchor (cfg : Config) : list Q :=
  zip_with (fun axis_1 axis_2 => py_round2 ((axis_1 + axis_2) / 2))
    (vector (gear1_fixed_position cfg)) (vector (gear2_fixed_position cfg)).

(** The object as it stands when [_parse_config] reaches its last line. *)
Definition parse_config (cfg : Config) : AssemblyA :=
  {| config := cfg;
     components := parse_components cfg;
     connections := parse_connections cfg;
     red_point_component := 1;
     anchor := parse_anchor cfg |}.

(** The signature of the base constructor is
    [__init__(self, connection_list, components, iters=100, tol=1e-4,
    plot_newt=False)]: a call with [positional] arguments after [self] binds
    when it supplies the two required parameters and at most all five. *)
Definition init_binds (positional : nat) : bool :=
  ((2 <=? positional) && (positional <=? 5))%nat.

(** [AssemblyA(config)].  The last line of [_parse_config] is the call
    [Assembly.__init__(self, self.connections)], with one argument after
    [self]; [base_init] is what the body of the base constructor does to the
    object when the call binds, and [TypeError] is raised when it does not. *)
Definition AssemblyA_init (base_init : AssemblyA -> Outcome AssemblyA) (cfg : Config)
  : Outcome AssemblyA :=
  let self := parse_config cfg in
  if init_binds 1 then base_init self else Raise TypeError.

(* ================================================================= *)
(** ** The feasibility validator *)

Definition sq (x : Q) : Q := x * x.

Definition points_distance (point1 point2 : Point) : Q :=
  let dis :=
    fold_left Qplus
      (zip_with (fun a b => sq (a - b)) (vector point1) (vector point2)) 0 in
  py_round2_sqrt dis.

(** The six guards of [is_vaild_assembleA], in program order; a guard that
    holds makes the validator return [False]. *)
Definition stick1_shorter_than_joint (cfg : Config) : bool :=
  Qltb (stick1_length cfg) (v0 (stick1_stick2_joint_location cfg)).

Definition stick2_shorter_than_joint (cfg : Config) : bool :=
  Qltb (stick2_length cfg) (v0 (stick2_stick1_joint_location cfg)).

Definition gear1_joint_outside (cfg : Config) : bool :=
  let joint_x1 := v0 (gear1_stick1_joint_location cfg) in
  let joint_y1 := v1 (gear1_stick1_joint_location cfg) in
  Qltb (sq (gear1_radius cfg)) (sq (joint_x1 - 0) + sq (joint_y1 - 0)).

Definition gear2_joint_outside (cfg : Config) : bool :=
  let joint_x2 := v0 (gear2_stick2_joint_location cfg) in
  let joint_y2 := v1 (gear2_stick2_joint_location cfg) in
  Qltb (sq (gear2_radius cfg)) (sq (joint_x2 - 0) + sq (joint_y2 - 0)).

Definition sticks_too_short (cfg : Config) : bool :=
  let gears_dis := points_distance (gear1_fixed_position cfg) (gear2_fixed_position cfg) in
  let stick2_len := stick2_length cfg in
  let stick1_part_len := v0 (stick1_stick2_joint_location cfg) in
  Qle_bool (stick2_len + stick1_part_len)
           (gears_dis + gear1_radius cfg + gear2_radius cfg).

Definition sticks_too_long (cfg : Config) : bool :=
  let gears_dis := points_distance (gear1_fixed_position cfg) (gear2_fixed_position cfg) in
  let stick2_len := stick2_length cfg in
  let stick1_part_len := v0 (stick1_stick2_joint_location cfg) in
  Qltb (gears_dis - gear1_radius cfg + stick1_part_len) stick2_len.

Definition is_vaild_assembleA (assemblyA : AssemblyA) : bool :=
  let cfg := config assemblyA in
  if stick1_shorter_than_joint cfg then false
  else if stick2_shorter_than_joint cfg then false
  else if gear1_joint_outside cfg then false
  else if gear2_joint_outside cfg then false
  else if sticks_too_short cfg then false
  else if sticks_too_long cfg then false
  else true.

(** The dictionary [return_prototype] fills. *)
Definition prototype_config : Config :=
  {| gear1_radius := 2;
     stick1_length := 8;
     gear2_radius := 1;
     stick2_length := 6;
     gear1_fixed_position := mkPoint 0 0 0;
     gear2_fixed_position := mkPoint 6 0 0;
     gear1_fixed_orientation := mkAlignment 0 0 0;
     gear2_fixed_orientation := mkAlignment 0 0 0;
     gear1_stick1_joint_location := mkVec3 1 1 0;
     stick1_gear1_joint_location := mkVec3 0 0 0;
     gear2_stick2_joint_location := mkVec3 (-1 # 2) (-1 # 2) 0;
     stick2_gear2_joint_location := mkVec3 0 0 0;
     stick1_stick2_joint_location := mkVec3 4 0 0;
     stick2_stick1_joint_location := mkVec3 6 0 0 |}.

(* ================================================================= *)
(** ** The dissimilarity filter *)

Definition ofir_score (curve1 curve2 : Curve) : Q := 3 # 2.

(** [is_dissimilar] with the scorer it calls as a parameter. *)
Fixpoint is_dissimilar_with (score : Curve -> Curve -> Q)
    (curve : Curve) (database : list Curve) (gamma : Q) : bool :=
  match database with
  | [] => true
  | database_curve :: rest =>
      if Qltb (score curve database_curve) gamma then false
      else is_dissimilar_with score curve rest gamma
  end.

Definition is_dissimilar (curve : Curve) (database : list Curve) (gamma : Q) : bool :=
  is_dissimilar_with ofir_score curve database gamma.

Definition default_gamma : Q := 1.

(* ================================================================= *)
(** ** Perturbation of a radius and of a length *)

Definition default_diff_val : Q := 2.
Definition default_min_radius : Q := 1 # 10.
Definition default_min_length : Q := 1 # 10.

Definition sample_radius_from_current (radius diff_val min_radius u : Q) : Q :=
  if Qltb radius (1 # 2)
  then py_round2 (py_max min_radius (radius + uniform (- diff_val * radius) diff_val u))
  else py_round2 (py_max min_radius (radius + uniform (- diff_val) diff_val u)).

Definition sample_length_from_current (length diff_val min_length u : Q) : Q :=
  if Qltb length (1 # 2)
  then py_round2 (py_max min_length (length + uniform (- diff_val * length) diff_val u))
  else py_round2 (py_max min_length (length + uniform (- diff_val) diff_val u)).

(* ================================================================= *)
(** ** Perturbation of a radius and of a length, on binary64 floats *)

(** The floats of Python are IEEE 754 binary64 numbers: 53 bits of
    precision, every operation rounded to the nearest float, ties to the
    float with an even significand. *)
Module Float64.

Definition prec : Z := 53.
Definition emax : Z := 1024.
Definition float : Type := spec_float.

(** An integer as the numerator or denominator of a quotient. *)
Definition int (z : Z) : float :=
  match z with
  | Z0 => S754_zero false
  | Zpos p => S754_finite false p 0
  | Zneg p => S754_finite true p 0
  end.

(** The float nearest to [n / d]: the value of a decimal literal, [0.104]
    being [ratio 104 1000]. *)
Definition ratio (n d : Z) : float := SFdiv prec emax (int n) (int d).

(** An [int] argument where a float is expected, as the default
    [diff_val=2]. *)
Definition of_int (z : Z) : float := binary_normalize prec emax z 0 false.

Definition add : float -> float -> float := SFadd prec emax.
Definition sub : float -> float -> float := SFsub prec emax.
Definition mul : float -> float -> float := SFmul prec emax.
Definition neg : float -> float := SFopp.
Definition ltb : float -> float -> bool := SFltb.

(** The rational number that a finite float is. *)
Definition exact (x : float) : Q :=
  match x with
  | S754_finite s m e =>
      let v := match e with
               | Z0 => inject_Z (Zpos m)
               | Zpos p => inject_Z (Zpos m * 2 ^ Zpos p)
               | Zneg p => Zpos m # (2 ^ p)
               end in
      if s then - v else v
  | _ => 0
  end.

(** [round(x, 2)]: the float nearest to the hundredth nearest to the exact
    value of [x], ties between hundredths to the even one; a zero keeps the
    sign of [x]; infinities and NaN are returned as they are. *)
Definition round2 (x : float) : float :=
  match x with
  | S754_finite s _ _ =>
      let k := round_half_even (exact x * 100) in
      if (k =? 0)%Z then S754_zero s else ratio k 100
  | _ => x
  end.

(** [max(a, b)]: the first argument unless the second is greater. *)
Definition py_max (a b : float) : float := if ltb a b then b else a.

(** [random.uniform(a, b)] is [a + (b - a) * self.random()]. *)
Definition uniform (a b u : float) : float := add a (mul (sub b a) u).

Definition sample_radius_from_current (radius diff_val min_radius u : float) : float :=
  if ltb radius (ratio 1 2)
  then round2 (py_max min_radius
                 (add radius (uniform (mul (neg diff_val) radius) diff_val u)))
  else round2 (py_max min_radius (add radius (uniform (neg diff_val) diff_val u))).

Definition sample_length_from_current (length diff_val min_length u : float) : float :=
  if ltb length (ratio 1 2)
  then round2 (py_max min_length
                 (add length (uniform (mul (neg diff_val) length) diff_val u)))
  else round2 (py_max min_length (add length (uniform (neg diff_val) diff_val u))).

End Float64.

(* ================================================================= *)
(** ** Python dictionaries *)

Module PyDict.
Section Dict.
Variables K V : Type.
Variable K_eq_dec : forall a b : K, {a = b} + {a <> b}.

Definition dict : Type := list (K * V).

Definition keys (d : dict) : list K := map fst d.

Fixpoint get (d : dict) (k : K) : option V :=
  match d with
  | [] => None
  | (k', v) :: rest => if K_eq_dec k' k then Some v else get rest k
  end.

(** [d[k] = v]: a present key keeps its place, a new key goes last. *)
Fixpoint set (d : dict) (k : K) (v : V) : dict :=
  match d with
  | [] => [(k, v)]
  | (k', v') :: rest =>
      if K_eq_dec k' k then (k', v) :: rest else (k', v') :: set rest k v
  end.

(** [d.update(e)]. *)
Definition update (d e : dict) : dict :=
  fold_left (fun acc kv => set acc (fst kv) (snd kv)) e d.

End Dict.
End PyDict.

(* ================================================================= *)
(** ** The assembly and its solver *)

(** What [scipy.optimize.minimize] hands back, as far as [update_state]
    reads it. *)
Record OptimizeResult : Type := mkResult { success : bool; res_x : list Q }.

Module Asm.
Section Solver.

(** A free parameter is an opaque hashable key. *)
Variable Param : Type.
Variable Param_eq_dec : forall a b : Param, {a = b} + {a <> b}.

(** The two capabilities of a connection that the assembly uses:
    [get_free_params()], a dictionary from parameter to current value, and
    [get_constraint()], a function from the values of those parameters to
    the list of residual terms. *)
Variable Con : Type.
Variable get_free_params : Con -> list (Param * Q).
Variable get_constraint : Con -> list Q -> list Q.

(** [minimize(fun, x0, method='Powell')]. *)
Variable minimize : (list Q -> Outcome Q) -> list Q -> OptimizeResult.

Record Assembly : Type := mkAssembly {
  components : list Component;
  con_list : list Con;
  iterations : nat;
  tolerance : Q;
  param_index : list (Param * nat);
  cur_state : list (Param * Q);
  plot_newt : bool;
  id : nat
}.

Definition free_params_in_assembly (cons : list Con) : list (Param * Q) :=
  fold_left (fun params const => PyDict.update Param_eq_dec params (get_free_params const))
    cons [].

(** [enumerate(d)] over the keys of a dictionary. *)
Definition enumerate {A : Type} (l : list A) : list (nat * A) :=
  combine (seq 0 (length l)) l.

(** [{p: i for i, p in enumerate(self.free_params_in_assembly())}]. *)
Definition build_param_index (cons : list Con) : list (Param * nat) :=
  fold_left (fun acc ip => PyDict.set Param_eq_dec acc (snd ip) (fst ip))
    (enumerate (PyDict.keys (free_params_in_assembly cons))) [].

Fixpoint mapM {A B : Type} (f : A -> Outcome B) (l : list A) : Outcome (list B) :=
  match l with
  | [] => Ok []
  | a :: rest =>
      (b <- f a ;; bs <- mapM f rest ;; Ok (b :: bs))%outcome
  end.

(** [param_list[param_index[p]]]. *)
Definition select (index : list (Param * nat)) (param_list : list Q) (p : Param)
  : Outcome Q :=
  match PyDict.get Param_eq_dec index p with
  | None => Raise KeyError
  | Some i =>
      match nth_error param_list i with
      | None => Raise IndexError
      | Some v => Ok v
      end
  end.

(** The arguments a connection's constraint is called with. *)
Definition constraint_args (index : list (Param * nat)) (param_list : list Q) (con : Con)
  : Outcome (list Q) :=
  mapM (select index param_list) (PyDict.keys (get_free_params con)).

(** The loop of [assembly_const]: [result = result + connection_const_res]. *)
Fixpoint collect_residuals (index : list (Param * nat)) (param_list : list Q)
    (cons : list Con) (result : list Q) : Outcome (list Q) :=
  match cons with
  | [] => Ok result
  | con :: rest =>
      (args <- constraint_args index param_list con ;;
       collect_residuals index param_list rest (result ++ get_constraint con args))%outcome
  end.

(** [sum(result)]: from [0], left to right. *)
Definition py_sum (l : list Q) : Q := fold_left Qplus l 0.

(** The closure [assembly_const] that [get_assembly_constraint] returns. *)
Definition assembly_const (cons : list Con) (index : list (Param * nat))
    (param_list : list Q) : Outcome Q :=
  (result <- collect_residuals index param_list cons [] ;; Ok (py_sum result))%outcome.

Definition get_assembly_constraint (cons : list Con)
  : (list Q -> Outcome Q) * list (Param * nat) :=
  let index := build_param_index cons in
  (assembly_const cons index, index).

(** [self.const]. *)
Definition const (self : Assembly) : list Q -> Outcome Q :=
  assembly_const (con_list self) (param_index self).

Definition lookup_state (state : list (Param * Q)) (k : Param) : Outcome Q :=
  match PyDict.get Param_eq_dec state k with
  | None => Raise KeyError
  | Some v => Ok v
  end.

Definition get_cur_state_array (self : Assembly) : Outcome (list Q) :=
  mapM (lookup_state (cur_state self)) (PyDict.keys (param_index self)).

(** [update_cur_state_from_array]: the dictionary is written entry by entry,
    and an index outside the array stops the loop with the entries written
    so far in place. *)
Fixpoint update_cur_state_from_array (items : list (Param * nat))
    (new_state_array : list Q) (state : list (Param * Q))
  : list (Param * Q) * option exn :=
  match items with
  | [] => (state, None)
  | (param, idx) :: rest =>
      match nth_error new_state_array idx with
      | None => (state, Some IndexError)
      | Some v =>
          update_cur_state_from_array rest new_state_array
            (PyDict.set Param_eq_dec state param v)
      end
  end.

Definition set_cur_state (self : Assembly) (state : list (Param * Q)) : Assembly :=
  {| components := components self;
     con_list := con_list self;
     iterations := iterations self;
     tolerance := tolerance self;
     param_index := param_index self;
     cur_state := state;
     plot_newt := plot_newt self;
     id := id self |}.

(** [update_state]: the assembly after the call, and what the call returned
    or raised. *)
Definition update_state (self : Assembly) : Assembly * Outcome bool :=
  match get_cur_state_array self with
  | Ok x =>
      let res := minimize (const self) x in
      if success res then
        match update_cur_state_from_array (param_index self) (res_x res) (cur_state self) with
        | (state, Some e) => (set_cur_state self state, Raise e)
        | (state, None) =>
            let self' := set_cur_state self state in
            (self',
             (x' <- get_cur_state_array self' ;;
              printed <- const self' x' ;;
              Ok true)%outcome)
        end
      else (self, Ok false)
  | Raise e => (self, Raise e)
  | OutOfFuel => (self, OutOfFuel)
  end.

Definition default_iters : nat := 100.
Definition default_tol : Q := 1 # 10000.

(** [Assembly(connection_list, components, iters, tol, plot_newt)], with the
    class counter [Assembly.id_counter] passed in and out. *)
Definition init (connection_list : list Con) (comps : list Component)
    (iters : nat) (tol : Q) (plot : bool) (id_counter : nat)
  : Outcome (Assembly * nat) :=
  let '(_, index) := get_assembly_constraint connection_list in
  let self :=
    {| components := comps;
       con_list := connection_list;
       iterations := iters;
       tolerance := tol;
       param_index := index;
       cur_state := free_params_in_assembly connection_list;
       plot_newt := plot;
       id := 0 |} in
  match update_state self with
  | (self', Ok true) =>
      Ok ({| components := components self';
             con_list := con_list self';
             iterations := iterations self';
             tolerance := tolerance self';
             param_index := param_index self';
             cur_state := cur_state self';
             plot_newt := plot_newt self';
             id := id_counter |}, S id_counter)
  | (_, Ok false) => Raise AssemblyFailedToInit
  | (_, Raise e) => Raise e
  | (_, OutOfFuel) => OutOfFuel
  end.

(** The objective in the words of the specification: the sum, over the
    connections, of the sum of the residual terms of each, every residual
    function applied to the entries of [x] that the index selects. *)
Definition slot_value (index : list (Param * nat)) (x : list Q) (p : Param) : Q :=
  match PyDict.get Param_eq_dec index p with
  | Some i => nth i x 0
  | None => 0
  end.

Definition residuals_of (index : list (Param * nat)) (x : list Q) (con : Con) : list Q :=
  get_constraint con (map (slot_value index x) (PyDict.keys (get_free_params con))).

Definition Qsum (l : list Q) : Q := fold_right Qplus 0 l.

Definition raw_residual_sum (cons : list Con) (index : list (Param * nat)) (x : list Q) : Q :=
  Qsum (map (fun con => Qsum (residuals_of index x con)) cons).

(** The index of a key list: the i-th key at slot [start + i]. *)
Definition slots (start : nat) (ks : list Param) : list (Param * nat) :=
  combine ks (seq start (length ks)).

(** The invariant of an assembly: the keys of the state are distinct, the
    index lists them with their positions, and every parameter of every
    connection is among them. *)
Definition well_formed (self : Assembly) : Prop :=
  let ks := PyDict.keys (cur_state self) in
  NoDup ks /\
  param_index self = slots 0 ks /\
  forall con, In con (con_list self) -> incl (PyDict.keys (get_free_params con)) ks.

(** What the solver relies on in the minimizer: the result has the shape of
    the seed. *)
Definition shape_preserving : Prop :=
  forall f x0, length (res_x (minimize f x0)) = length x0.

(** [free_params_cnt_in_assembly]. *)
Definition free_params_cnt_in_assembly (cons : list Con) : nat :=
  length (free_params_in_assembly cons).

(** [get_state_from_array]: a fresh dictionary, filled in the order of the
    index. *)
Fixpoint state_from_items (items : list (Param * nat)) (state_array : list Q)
    (state : list (Param * Q)) : Outcome (list (Param * Q)) :=
  match items with
  | [] => Ok state
  | (param, idx) :: rest =>
      match nth_error state_array idx with
      | None => Raise IndexError
      | Some v => state_from_items rest state_array (PyDict.set Param_eq_dec state param v)
      end
  end.

Definition get_state_from_array (self : Assembly) (state_array : list Q)
  : Outcome (list (Param * Q)) :=
  state_from_items (param_index self) state_array [].

(** The third capability of a connection, used by the gradient:
    [get_constraint_prime()], a function from the values of the free
    parameters to a dictionary from parameter to partial derivative. *)
Variable get_constraint_prime : Con -> list Q -> list (Param * Q).

(** [joint_grad_dict[k]] of a [defaultdict(lambda: 0)]. *)
Definition grad_value (d : list (Param * Q)) (k : Param) : Q :=
  match PyDict.get Param_eq_dec d k with
  | Some v => v
  | None => 0
  end.

(** [for k in gradient_dict: joint_grad_dict[k] += gradient_dict[k]]. *)
Definition accumulate_gradient (joint gradient_dict : list (Param * Q))
  : list (Param * Q) :=
  fold_left (fun acc kv =>
               PyDict.set Param_eq_dec acc (fst kv) (grad_value acc (fst kv) + snd kv))
    gradient_dict joint.

(** The first loop of [assembly_const_deriv]. *)
Fixpoint collect_gradients (index : list (Param * nat)) (param_list : list Q)
    (cons : list Con) (joint : list (Param * Q)) : Outcome (list (Param * Q)) :=
  match cons with
  | [] => Ok joint
  | con :: rest =>
      (args <- constraint_args index param_list con ;;
       collect_gradients index param_list rest
         (accumulate_gradient joint (get_constraint_prime con args)))%outcome
  end.

(** [result[i] = v] on an array. *)
Fixpoint array_set (result : list Q) (i : nat) (v : Q) : Outcome (list Q) :=
  match result, i with
  | [], _ => Raise IndexError
  | _ :: rest, O => Ok (v :: rest)
  | r :: rest, S i' => (rest' <- array_set rest i' v ;; Ok (r :: rest'))%outcome
  end.

(** The second loop: [result[self.param_index[k]] = joint_grad_dict[k]]. *)
Fixpoint order_gradient (index : list (Param * nat)) (items : list (Param * Q))
    (result : list Q) : Outcome (list Q) :=
  match items with
  | [] => Ok result
  | (k, v) :: rest =>
      match PyDict.get Param_eq_dec index k with
      | None => Raise KeyError
      | Some i => (result' <- array_set result i v ;; order_gradient index rest result')%outcome
      end
  end.

(** The closure [assembly_const_deriv] that
    [get_assembly_constraints_deriv] returns. *)
Definition assembly_const_deriv (cons : list Con) (index : list (Param * nat))
    (param_list : list Q) : Outcome (list Q) :=
  (joint_grad_dict <- collect_gradients index param_list cons [] ;;
   order_gradient index joint_grad_dict (repeat 0 (length joint_grad_dict)))%outcome.

(** The sum of the partial derivatives that the connections report for one
    parameter. *)
Definition gradient_sum (cons : list Con) (index : list (Param * nat)) (x : list Q)
    (p : Param) : Q :=
  Qsum (map (fun con =>
               grad_value
                 (get_constraint_prime con
                    (map (slot_value index x) (PyDict.keys (get_free_params con)))) p)
          cons).

(** The dictionary [joint_grad_dict] as the first loop leaves it when no
    lookup fails. *)
Definition joint_gradient (index : list (Param * nat)) (x : list Q) (cons : list Con)
    (joint : list (Param * Q)) : list (Param * Q) :=
  fold_left (fun j con =>
               accumulate_gradient j
                 (get_constraint_prime con
                    (map (slot_value index x) (PyDict.keys (get_free_params con)))))
    cons joint.

End Solver.
End Asm.

(** Two small assemblies to evaluate the solver on. *)
Module Toy.

(** One connection on one parameter, of initial value [3], whose residual
    [x * x + 1] has no zero. *)
Definition free_params (con : unit) : list (nat * Q) := [(0%nat, 3)].
Definition constraint (con : unit) (args : list Q) : list Q :=
  map (fun a => a * a + 1) args.

(** A minimizer that reports convergence at the origin, where that
    objective is least. *)
Definition minimize_origin (f : list Q -> Outcome Q) (x0 : list Q) : OptimizeResult :=
  mkResult true (map (fun _ => 0) x0).

(** A minimizer that reports failure. *)
Definition minimize_fails (f : list Q -> Outcome Q) (x0 : list Q) : OptimizeResult :=
  mkResult false x0.

(** Two connections that share parameter [0]: the first has the residual
    [x0], the second, on the parameters [0] and [1], the residual [- x1]. *)
Definition shared_params (con : bool) : list (nat * Q) :=
  if con then [(0%nat, 1)] else [(0%nat, 1); (1%nat, 2)].
Definition shared_constraint (con : bool) (args : list Q) : list Q :=
  if con then args
  else match args with
       | [_; b] => [- b]
       | _ => []
       end.

(** The partial derivatives of those two residuals. *)
Definition shared_gradient (con : bool) (args : list Q) : list (nat * Q) :=
  if con then [(0%nat, 1)] else [(0%nat, 0); (1%nat, - (1))].

End Toy.

(* ================================================================= *)
(** ** The curve tracer *)

(** The three calls [get_assembly_curve] makes on its argument:
    [assembly.actuator.turn(deg)], [assembly.update_state()] (the object
    after the call and the flag it returns) and
    [assembly.get_red_point_position()].  Each of them is a Python call and
    can raise: [update_state] does so when the minimizer or one of its own
    look-ups raises. *)
Class Mechanism (M : Type) : Type := {
  turn : Q -> M -> Outcome M;
  update_state : M -> Outcome (M * bool);
  get_red_point_position : M -> Outcome Vec3
}.

Section Tracer.
Context {M : Type} `{Mechanism M}.

(** One pass of the loop body: the assembly after the turn and the solve,
    the flag the solve returned, and the position appended. *)
Definition trace_step (deg : Q) (assembly : M) : Outcome (M * bool * Vec3) :=
  (turned <- turn deg assembly ;;
   ' (solved, flag) <- update_state turned ;;
   position <- get_red_point_position solved ;;
   Ok (solved, flag, position))%outcome.

Fixpoint trace_loop (steps : nat) (deg : Q) (assembly : M) (assembly_curve : Curve)
  : Outcome (M * Curve) :=
  match steps with
  | O => Ok (assembly, assembly_curve)
  | S steps' =>
      (turned <- turn deg assembly ;;
       ' (solved, _) <- update_state turned ;;
       position <- get_red_point_position solved ;;
       trace_loop steps' deg solved (assembly_curve ++ [position]))%outcome
  end.

(** [get_assembly_curve]: the assembly as the loop leaves it, and the list
    returned. *)
Definition get_assembly_curve (assembly : M) (number_of_points : nat)
  : Outcome (M * Curve) :=
  trace_loop number_of_points (360 / inject_Z (Z.of_nat number_of_points)) assembly [].

(** What the passes of a trace yield, one entry per pass, as long as none of
    the calls raises. *)
Fixpoint trace_log (steps : nat) (deg : Q) (assembly : M)
  : Outcome (list (M * bool * Vec3)) :=
  match steps with
  | O => Ok []
  | S steps' =>
      (' (solved, flag, position) <- trace_step deg assembly ;;
       rest <- trace_log steps' deg solved ;;
       Ok ((solved, flag, position) :: rest))%outcome
  end.

(** The assembly a trace has reached after the passes of [log]. *)
Definition state_after (assembly : M) (log : list (M * bool * Vec3)) : M :=
  fold_left (fun _ pass => fst (fst pass)) log assembly.

End Tracer.

(** The same mechanism with the flag of every solve replaced by [flag]. *)
Definition relabel_flags {M : Type} (flag : M -> bool -> bool) (mech : Mechanism M)
  : Mechanism M :=
  {| turn := @turn M mech;
     update_state := fun assembly =>
       match @update_state M mech assembly with
       | Ok (solved, success) => Ok (solved, flag solved success)
       | Raise e => Raise e
       | OutOfFuel => OutOfFuel
       end;
     get_red_point_position := @get_red_point_position M mech |}.

(* ================================================================= *)
(** ** The explorer *)

(** The stream behind [random.random()] and the place reached in it. *)
Record RNG : Type := mkRNG { stream : nat -> Q; cursor : nat }.

Definition next_draw (rng : RNG) : Q * RNG :=
  (stream rng (cursor rng), mkRNG (stream rng) (S (cursor rng))).

Definition sample_gear_parameters_from_current (radius diff_val : Q) (rng : RNG) : Q * RNG :=
  let (u, rng') := next_draw rng in
  (py_round2 (sample_radius_from_current radius diff_val default_min_radius u), rng').

Definition sample_stick_parameters_from_current (length diff_val : Q) (rng : RNG) : Q * RNG :=
  let (u, rng') := next_draw rng in
  (py_round2 (sample_length_from_current length diff_val default_min_length u), rng').

Definition vec_get (v : Vec3) (i : nat) : Outcome Q :=
  match i with
  | 0%nat => Ok (v0 v)
  | 1%nat => Ok (v1 v)
  | 2%nat => Ok (v2 v)
  | _ => Raise IndexError
  end.

Definition vec_set (v : Vec3) (i : nat) (q : Q) : Vec3 :=
  match i with
  | 0%nat => mkVec3 q (v1 v) (v2 v)
  | 1%nat => mkVec3 (v0 v) q (v2 v)
  | 2%nat => mkVec3 (v0 v) (v1 v) q
  | _ => v
  end.

(** The inner loop of [sample_position]: [while new_pos < 0]. *)
Fixpoint redraw_while_negative (fuel : nat) (current diff_val new_pos : Q) (rng : RNG)
  : Outcome (Q * RNG) :=
  if Qltb new_pos 0 then
    match fuel with
    | O => OutOfFuel
    | S fuel' =>
        let (u, rng') := next_draw rng in
        redraw_while_negative fuel' current diff_val
          (py_round2 (current + uniform (- diff_val) diff_val u)) rng'
    end
  else Ok (new_pos, rng).

Fixpoint sample_position_axes (fuel : nat) (axes : list nat) (joint_location : Vec3)
    (diff_val : Q) (enable_negative : bool) (rng : RNG) : Outcome (Vec3 * RNG) :=
  match axes with
  | [] => Ok (joint_location, rng)
  | i :: rest =>
      (current <- vec_get joint_location i ;;
       let (u, rng1) := next_draw rng in
       let new_pos := py_round2 (current + uniform (- diff_val) diff_val u) in
       ' (new_pos', rng2) <-
          (if enable_negative then Ok (new_pos, rng1)
           else redraw_while_negative fuel current diff_val new_pos rng1) ;;
       sample_position_axes fuel rest (vec_set joint_location i new_pos')
         diff_val enable_negative rng2)%outcome
  end.

Definition sample_position (fuel : nat) (joint_location : Vec3) (diff_val : Q)
    (num_of_axis : nat) (enable_negative : bool) (rng : RNG) : Outcome (Vec3 * RNG) :=
  sample_position_axes fuel (seq 0 num_of_axis) joint_location diff_val enable_negative rng.

Definition sample_point (fuel : nat) (point : Point) (diff_val : Q) (num_of_axis : nat)
    (rng : RNG) : Outcome (Point * RNG) :=
  (' (v, rng') <-
     sample_position fuel (mkVec3 (px point) (py point) (pz point))
       diff_val num_of_axis true rng ;;
   Ok (mkPoint (v0 v) (v1 v) (v2 v), rng'))%outcome.

(** The configuration [sample_from_cur_assemblyA] leaves in
    [assemblyA.config]; the dictionary is changed in place. *)
Definition sample_config (fuel : nat) (cfg : Config)
    (gear_diff_val stick_diff_val position_diff_val : Q) (rng : RNG)
  : Outcome (Config * RNG) :=
  (let (g1, r1) := sample_gear_parameters_from_current (gear1_radius cfg) gear_diff_val rng in
   let (g2, r2) := sample_gear_parameters_from_current (gear2_radius cfg) gear_diff_val r1 in
   let (s1, r3) := sample_stick_parameters_from_current (stick1_length cfg) stick_diff_val r2 in
   let (s2, r4) := sample_stick_parameters_from_current (stick2_length cfg) stick_diff_val r3 in
   ' (g1s1, r5) <-
      sample_position fuel (gear1_stick1_joint_location cfg) position_diff_val 2 true r4 ;;
   ' (g2s2, r6) <-
      sample_position fuel (gear2_stick2_joint_location cfg) position_diff_val 2 true r5 ;;
   ' (s1s2, r7) <-
      sample_position fuel (stick1_stick2_joint_location cfg) position_diff_val 1 false r6 ;;
   ' (p1, r8) <- sample_point fuel (gear1_fixed_position cfg) position_diff_val 1 r7 ;;
   ' (p2, r9) <- sample_point fuel (gear2_fixed_position cfg) position_diff_val 1 r8 ;;
   Ok ({| gear1_radius := g1;
          stick1_length := s1;
          gear2_radius := g2;
          stick2_length := s2;
          gear1_fixed_position := p1;
          gear2_fixed_position := p2;
          gear1_fixed_orientation := gear1_fixed_orientation cfg;
          gear2_fixed_orientation := gear2_fixed_orientation cfg;
          gear1_stick1_joint_location := g1s1;
          stick1_gear1_joint_location := stick1_gear1_joint_location cfg;
          gear2_stick2_joint_location := g2s2;
          stick2_gear2_joint_location := stick2_gear2_joint_location cfg;
          stick1_stick2_joint_location := s1s2;
          stick2_stick1_joint_location := mkVec3 s2 0 0 |}, r9))%outcome.

Definition default_sample_diff : Q := 1 # 2.

Record AssemblyA_Sampler : Type := mkSampler {
  database : list AssemblyA;
  curve_database : list Curve;
  number_of_points : nat;
  num_of_samples_around : nat
}.

Section Explorer.

(** The constructor call [AssemblyA(config)] the explorer makes, and the
    methods the tracer calls on the objects it returns. *)
Variable new_AssemblyA : Config -> Outcome AssemblyA.
Context `{Mechanism AssemblyA}.

Definition return_prototype : Outcome AssemblyA := new_AssemblyA prototype_config.

Definition sample_from_cur_assemblyA (fuel : nat) (assemblyA : AssemblyA)
    (gear_diff_val stick_diff_val position_diff_val : Q) (rng : RNG)
  : Outcome (AssemblyA * RNG) :=
  (' (cfg, rng') <-
     sample_config fuel (config assemblyA)
       gear_diff_val stick_diff_val position_diff_val rng ;;
   new_assembly <- new_AssemblyA cfg ;;
   Ok (new_assembly, rng'))%outcome.

(** The [while] loop of [create_assemblyA], entered with [new_assembly];
    [attempts] bounds the re-samplings still allowed. *)
Fixpoint create_assemblyA_loop (attempts fuel : nat) (new_assembly : AssemblyA) (rng : RNG)
  : Outcome (AssemblyA * RNG) :=
  if is_vaild_assembleA new_assembly then Ok (new_assembly, rng)
  else
    match attempts with
    | O => OutOfFuel
    | S attempts' =>
        (prototype <- return_prototype ;;
         ' (next, rng') <-
            sample_from_cur_assemblyA fuel prototype
              default_sample_diff default_sample_diff default_sample_diff rng ;;
         create_assemblyA_loop attempts' fuel next rng')%outcome
    end.

Definition create_assemblyA (fuel : nat) (rng : RNG) : Outcome (AssemblyA * RNG) :=
  (prototype <- return_prototype ;;
   ' (new_assembly, rng') <-
      sample_from_cur_assemblyA fuel prototype (1 # 2) (1 # 2) (1 # 2) rng ;;
   create_assemblyA_loop fuel fuel new_assembly rng')%outcome.

(** The [while] loop of [get_origin_assembly]. *)
Fixpoint get_origin_assembly_loop (attempts fuel : nat) (self : AssemblyA_Sampler)
    (origin_assembly : AssemblyA) (origin_curve : Curve) (rng : RNG)
  : Outcome (AssemblyA * Curve * RNG) :=
  if is_dissimilar origin_curve (curve_database self) default_gamma
  then Ok (origin_assembly, origin_curve, rng)
  else
    match attempts with
    | O => OutOfFuel
    | S attempts' =>
        (' (created, rng') <- create_assemblyA fuel rng ;;
         ' (traced, curve) <- get_assembly_curve created (number_of_points self) ;;
         get_origin_assembly_loop attempts' fuel self traced curve rng')%outcome
    end.

(** [get_origin_assembly]: the pair returned, the sampler with the two
    databases extended, and the random stream. *)
Definition get_origin_assembly (fuel : nat) (self : AssemblyA_Sampler) (rng : RNG)
  : Outcome (AssemblyA * Curve * AssemblyA_Sampler * RNG) :=
  (' (created, rng1) <- create_assemblyA fuel rng ;;
   ' (traced, curve) <- get_assembly_curve created (number_of_points self) ;;
   ' (origin_assembly, origin_curve, rng2) <-
      get_origin_assembly_loop fuel fuel self traced curve rng1 ;;
   Ok (origin_assembly, origin_curve,
       {| database := database self ++ [origin_assembly];
          curve_database := curve_database self ++ [origin_curve];
          number_of_points := number_of_points self;
          num_of_samples_around := num_of_samples_around self |},
       rng2))%outcome.

End Explorer.

(** What the claim about the builder asks of the connection list of a
    configuration: nine connections, a fixed joint of gear1 at the first
    anchor, a fixed joint of gear2 at the second, and the link1/link2 pin
    joint at link1's stick1-to-stick2 point and link2's stick2-to-stick1
    point. *)
Definition nine_connection_topology (cfg : Config) (conns : list Connection) : Prop :=
  length conns = 9%nat /\
  In (FixedConnection gear1 (gear1_fixed_position cfg) (gear1_fixed_orientation cfg)) conns /\
  In (FixedConnection gear2 (gear2_fixed_position cfg) (gear2_fixed_orientation cfg)) conns /\
  In (PinConnection link1 link2
        (stick1_stick2_joint_location cfg) (stick2_stick1_joint_location cfg)) conns.

(** A mechanism whose solve fails at every phase: the state is the phase of
    the actuator, and the marked point sits at that abscissa. *)
Definition jammed_mechanism : Mechanism Q :=
  {| turn := fun deg phase => Ok (phase + deg);
     update_state := fun phase => Ok (phase, false);
     get_red_point_position := fun phase => Ok (mkVec3 phase 0 0) |}.

(** A mechanism whose solve raises once the actuator has made a full turn,
    and succeeds before. *)
Definition seizing_mechanism : Mechanism Q :=
  {| turn := fun deg phase => Ok (phase + deg);
     update_state := fun phase =>
       if Qle_bool 360 phase then Raise IndexError else Ok (phase, true);
     get_red_point_position := fun phase => Ok (mkVec3 phase 0 0) |}.

(** The assembly the constructor starts from for the one connection of
    [Toy.free_params], before its first solve. *)
Definition toy_assembly : Asm.Assembly nat unit :=
  {| Asm.components := [];
     Asm.con_list := [tt];
     Asm.iterations := Asm.default_iters;
     Asm.tolerance := Asm.default_tol;
     Asm.param_index := [(0%nat, 0%nat)];
     Asm.cur_state := [(0%nat, 3)];
     Asm.plot_newt := false;
     Asm.id := 0%nat |}.

(** A random stream whose every draw is [0], read from [cursor] on. *)
Definition zero_rng (cursor : nat) : RNG := mkRNG (fun _ => 0) cursor.

(** The configuration that perturbing the prototype by [0.5] gives when
    every draw is [0]: each jitter is the lowest of its range. *)
Definition lowest_jitter_config : Config :=
  {| gear1_radius := 150 # 100;
     stick1_length := 750 # 100;
     gear2_radius := 50 # 100;
     stick2_length := 550 # 100;
     gear1_fixed_position := mkPoint (-50 # 100) 0 0;
     gear2_fixed_position := mkPoint (550 # 100) 0 0;
     gear1_fixed_orientation := mkAlignment 0 0 0;
     gear2_fixed_orientation := mkAlignment 0 0 0;
     gear1_stick1_joint_location := mkVec3 (50 # 100) (50 # 100) 0;
     stick1_gear1_joint_location := mkVec3 0 0 0;
     gear2_stick2_joint_location := mkVec3 (-100 # 100) (-100 # 100) 0;
     stick2_gear2_joint_location := mkVec3 0 0 0;
     stick1_stick2_joint_location := mkVec3 (350 # 100) 0 0;
     stick2_stick1_joint_location := mkVec3 (550 # 100) 0 0 |}.

(** The configuration with the two anchors exchanged. *)
Definition swap_anchors (cfg : Config) : Config :=
  {| gear1_radius := gear1_radius cfg;
     stick1_length := stick1_length cfg;
     gear2_radius := gear2_radius cfg;
     stick2_length := stick2_length cfg;
     gear1_fixed_position := gear2_fixed_position cfg;
     gear2_fixed_position := gear1_fixed_position cfg;
     gear1_fixed_orientation := gear1_fixed_orientation cfg;
     gear2_fixed_orientation := gear2_fixed_orientation cfg;
     gear1_stick1_joint_location := gear1_stick1_joint_location cfg;
     stick1_gear1_joint_location := stick1_gear1_joint_location cfg;
     gear2_stick2_joint_location := gear2_stick2_joint_location cfg;
     stick2_gear2_joint_location := stick2_gear2_joint_location cfg;
     stick1_stick2_joint_location := stick1_stick2_joint_location cfg;
     stick2_stick1_joint_location := stick2_stick1_joint_location cfg |}.

(** The sum of squared coordinate differences that [points_distance]
    accumulates in [dis]. *)
Definition squared_distance (point1 point2 : Point) : Q :=
  sq (px point1 - px point2) + sq (py point1 - py point2) + sq (pz point1 - pz point2).

(* ================================================================= *)
(** * Properties *)

(** ** Comparisons and rounding *)

Lemma Qltb_lt (a b : Q) : Qltb a b = true <-> a < b.
Proof.
  unfold Qltb. rewrite negb_true_iff. split.
  - intros E. apply Qnot_le_lt. intros L. apply Qle_bool_iff in L. congruence.
  - intros L. destruct (Qle_bool b a) eqn:E; [|reflexivity].
    apply Qle_bool_iff in E. exfalso. apply (Qlt_not_le _ _ L E).
Qed.

Lemma Qltb_ge (a b : Q) : Qltb a b = false <-> b <= a.
Proof.
  unfold Qltb. rewrite negb_false_iff. apply Qle_bool_iff.
Qed.

Lemma py_max_lower (a b : Q) : a <= py_max a b.
Proof.
  unfold py_max. destruct (Qltb a b) eqn:E.
  - apply Qltb_lt in E. apply Qlt_le_weak, E.
  - apply Qle_refl.
Qed.

Lemma round_half_even_floor (x : Q) :
  (Qfloor x <= round_half_even x <= Qfloor x + 1)%Z.
Proof.
  destruct x as [n d]. unfold round_half_even, Qfloor. cbn [Qnum Qden].
  destruct (2 * (n mod Z.pos d) ?= Z.pos d)%Z; try lia.
  destruct (Z.even (n / Z.pos d)); lia.
Qed.

(** Rounding to the nearest integer is monotone: within one unit interval
    the remainders decide, across intervals the floors do. *)
Lemma round_half_even_mono (x y : Q) :
  x <= y -> (round_half_even x <= round_half_even y)%Z.
Proof.
  intros L.
  pose proof (Qfloor_resp_le _ _ L) as F.
  pose proof (round_half_even_floor x) as Bx.
  pose proof (round_half_even_floor y) as By.
  destruct (Z.eq_dec (Qfloor x) (Qfloor y)) as [E|NE]; [|lia].
  clear Bx By F.
  destruct x as [nx dx], y as [ny dy].
  unfold Qle in L. unfold Qfloor in E. unfold round_half_even. cbn [Qnum Qden] in *.
  pose proof (Z.div_mod nx (Z.pos dx) ltac:(lia)) as Dx.
  pose proof (Z.div_mod ny (Z.pos dy) ltac:(lia)) as Dy.
  pose proof (Z.mod_pos_bound nx (Z.pos dx) ltac:(lia)) as Rx.
  pose proof (Z.mod_pos_bound ny (Z.pos dy) ltac:(lia)) as Ry.
  rewrite <- E.
  set (q := (nx / Z.pos dx)%Z) in *.
  set (rx := (nx mod Z.pos dx)%Z) in *.
  set (ry := (ny mod Z.pos dy)%Z) in *.
  assert (R : (rx * Z.pos dy <= ry * Z.pos dx)%Z) by nia.
  destruct (Z.compare_spec (2 * rx) (Z.pos dx)) as [Cx|Cx|Cx];
  destruct (Z.compare_spec (2 * ry) (Z.pos dy)) as [Cy|Cy|Cy];
  destruct (Z.even q); try lia; exfalso; nia.
Qed.

Lemma py_round2_mono (x y : Q) : x <= y -> py_round2 x <= py_round2 y.
Proof.
  intros L. unfold py_round2.
  assert (L' : x * 100 <= y * 100) by lra.
  apply round_half_even_mono in L'.
  unfold Qle. cbn [Qnum Qden]. lia.
Qed.

(** A whole number of hundredths is its own rounding. *)
Lemma py_round2_hundredths (k : Z) (x : Q) : x == k # 100 -> py_round2 x == k # 100.
Proof.
  intros E.
  assert (A : py_round2 x <= py_round2 (k # 100)) by (apply py_round2_mono; lra).
  assert (B : py_round2 (k # 100) <= py_round2 x) by (apply py_round2_mono; lra).
  assert (C : py_round2 (k # 100) = k # 100).
  { unfold py_round2, round_half_even. cbn [Qnum Qden Qmult].
    replace (k * 100)%Z with (k * Z.pos (100 * 1))%Z by lia.
    rewrite Z.div_mul, Z.mod_mul by lia. reflexivity. }
  rewrite C in A, B. apply Qle_antisym; assumption.
Qed.

(* ================================================================= *)
(** ** Perturbation *)

Lemma sample_radius_rounded_floor (radius diff_val min_radius u : Q) :
  py_round2 min_radius <= sample_radius_from_current radius diff_val min_radius u.
Proof.
  unfold sample_radius_from_current.
  destruct (Qltb radius (1 # 2)); apply py_round2_mono, py_max_lower.
Qed.

Lemma sample_length_rounded_floor (length diff_val min_length u : Q) :
  py_round2 min_length <= sample_length_from_current length diff_val min_length u.
Proof.
  unfold sample_length_from_current.
  destruct (Qltb length (1 # 2)); apply py_round2_mono, py_max_lower.
Qed.

(** C9 on binary64 floats, at the floor [0.104]: for the value [0.3], the
    jitter range [2] and the draw [0.0] the jittered value [-0.3] is below
    the floor, [max] takes the floor, and the rounding that follows gives
    [0.1], which is below the floor; the same for a length.  At the default
    floor [0.1] the same call returns [0.1], the floor itself. *)
Theorem perturbation_below_floor :
  Float64.sample_radius_from_current (Float64.ratio 3 10) (Float64.of_int 2)
    (Float64.ratio 104 1000) (S754_zero false) = Float64.ratio 1 10 /\
  Float64.sample_length_from_current (Float64.ratio 3 10) (Float64.of_int 2)
    (Float64.ratio 104 1000) (S754_zero false) = Float64.ratio 1 10 /\
  Float64.ltb (Float64.ratio 1 10) (Float64.ratio 104 1000) = true /\
  Float64.sample_radius_from_current (Float64.ratio 3 10) (Float64.of_int 2)
    (Float64.ratio 1 10) (S754_zero false) = Float64.ratio 1 10.
Proof.
  repeat split; vm_compute; reflexivity.
Qed.

(* ================================================================= *)
(** ** The dissimilarity filter *)

Lemma is_dissimilar_with_constant_far (c gamma : Q) (curve : Curve) (db : list Curve) :
  gamma <= c -> is_dissimilar_with (fun _ _ => c) curve db gamma = true.
Proof.
  intros L. induction db as [|d db IH]; cbn.
  - reflexivity.
  - apply Qltb_ge in L. rewrite L. exact IH.
Qed.

(** C8: with a scorer that is constantly [c], a database that is not empty
    rejects the candidate exactly when [c < gamma] and accepts it exactly
    when [gamma <= c]; for [ofir_score], which is constantly [1.5], exactly
    when [1.5 < gamma] and when [gamma <= 1.5]. *)
Theorem is_dissimilar_constant_scorer :
  forall (c gamma : Q) (curve first : Curve) (rest : list Curve),
    (is_dissimilar_with (fun _ _ => c) curve (first :: rest) gamma = false <-> c < gamma) /\
    (is_dissimilar_with (fun _ _ => c) curve (first :: rest) gamma = true <-> gamma <= c) /\
    (is_dissimilar curve (first :: rest) gamma = false <-> 3 # 2 < gamma) /\
    (is_dissimilar curve (first :: rest) gamma = true <-> gamma <= 3 # 2).
Proof.
  assert (G : forall c gamma curve first rest,
            (is_dissimilar_with (fun _ _ => c) curve (first :: rest) gamma = false <-> c < gamma) /\
            (is_dissimilar_with (fun _ _ => c) curve (first :: rest) gamma = true <-> gamma <= c)).
  { intros c gamma curve first rest. cbn.
    destruct (Qltb c gamma) eqn:E.
    - apply Qltb_lt in E. split; split; intros; try easy.
      exfalso. apply (Qlt_not_le _ _ E). assumption.
    - apply Qltb_ge in E.
      rewrite (is_dissimilar_with_constant_far curve rest E).
      split; split; intros; try easy.
      exfalso. apply (Qlt_not_le c gamma); assumption. }
  intros c gamma curve first rest.
  destruct (G c gamma curve first rest) as [A B].
  destruct (G (3 # 2) gamma curve first rest) as [C D].
  repeat split; try apply A; try apply B; try apply C; try apply D.
Qed.

(** C10: against an empty database the filter accepts, whatever the curve,
    the threshold and the scorer. *)
Theorem is_dissimilar_empty_database :
  forall (score : Curve -> Curve -> Q) (curve : Curve) (gamma : Q),
    is_dissimilar_with score curve [] gamma = true /\
    is_dissimilar curve [] gamma = true.
Proof.
  intros. split; reflexivity.
Qed.

(* ================================================================= *)
(** ** The validator on the prototype *)

Lemma prototype_gears_distance :
  points_distance (gear1_fixed_position prototype_config)
                  (gear2_fixed_position prototype_config) == 6.
Proof. reflexivity. Qed.

(** C7: on an assembly that carries the configuration of [return_prototype]
    the validator returns [True]; none of its guards fires: both link
    lengths reach their joint offsets, both gear joints lie within their
    gear's radius, the links are not too short ([9 < 10]) and not too long
    ([8 >= 6]). *)
Theorem validator_accepts_prototype :
  forall assemblyA : AssemblyA,
    config assemblyA = prototype_config ->
    is_vaild_assembleA assemblyA = true /\
    stick1_shorter_than_joint (config assemblyA) = false /\
    stick2_shorter_than_joint (config assemblyA) = false /\
    gear1_joint_outside (config assemblyA) = false /\
    gear2_joint_outside (config assemblyA) = false /\
    sticks_too_short (config assemblyA) = false /\
    sticks_too_long (config assemblyA) = false.
Proof.
  intros assemblyA E. unfold is_vaild_assembleA. rewrite E.
  repeat split; vm_compute; reflexivity.
Qed.

Lemma validator_accepts_prototype_witness :
  is_vaild_assembleA (parse_config prototype_config) = true /\
  stick1_shorter_than_joint (config (parse_config prototype_config)) = false /\
  stick2_shorter_than_joint (config (parse_config prototype_config)) = false /\
  gear1_joint_outside (config (parse_config prototype_config)) = false /\
  gear2_joint_outside (config (parse_config prototype_config)) = false /\
  sticks_too_short (config (parse_config prototype_config)) = false /\
  sticks_too_long (config (parse_config prototype_config)) = false.
Proof.
  apply (validator_accepts_prototype (parse_config prototype_config)). reflexivity.
Defined.

(* ================================================================= *)
(** ** The builder *)

(** C2, as the code has it: for every configuration [_parse_config] creates
    seven connections, in this order: the two phase connections
    (actuator to gear1, gear1 to gear2), a fixed joint of gear1 at the first
    anchor position and orientation, a fixed joint whose target is the
    second anchor position and orientation, the pin joints gear1/link1 and
    gear2/link2 at their configured points, and the pin joint link1/link2
    with link1's stick1-to-stick2 point on link1. *)
Theorem parse_connections_topology :
  forall cfg : Config,
    length (parse_connections cfg) = 7%nat /\
    exists (anchored : PartRef) (joint_on_link2 : Vec3),
      parse_connections cfg =
      [PhaseConnection TheActuator gear1;
       PhaseConnection gear1 gear2;
       FixedConnection gear1 (gear1_fixed_position cfg) (gear1_fixed_orientation cfg);
       FixedConnection anchored (gear2_fixed_position cfg) (gear2_fixed_orientation cfg);
       PinConnection gear1 link1
         (gear1_stick1_joint_location cfg) (stick1_gear1_joint_location cfg);
       PinConnection gear2 link2
         (gear2_stick2_joint_location cfg) (stick2_gear2_joint_location cfg);
       PinConnection link1 link2 (stick1_stick2_joint_location cfg) joint_on_link2].
Proof.
  intros cfg. split; [reflexivity|].
  eexists. eexists. reflexivity.
Qed.

(** C2, as stated, fails on the prototype: its connection list has seven
    entries, none of them a fixed joint of gear2, and none a link1/link2 pin
    joint that uses the stick2-to-stick1 point. *)
Lemma parse_connections_prototype_not_nine :
  length (parse_connections prototype_config) = 7%nat /\
  ~ In (FixedConnection gear2 (gear2_fixed_position prototype_config)
          (gear2_fixed_orientation prototype_config))
       (parse_connections prototype_config) /\
  ~ In (PinConnection link1 link2
          (stick1_stick2_joint_location prototype_config)
          (stick2_stick1_joint_location prototype_config))
       (parse_connections prototype_config) /\
  ~ nine_connection_topology prototype_config (parse_connections prototype_config).
Proof.
  split; [reflexivity|].
  assert (A : ~ In (FixedConnection gear2 (gear2_fixed_position prototype_config)
                      (gear2_fixed_orientation prototype_config))
                   (parse_connections prototype_config)).
  { cbn. intros H. repeat (destruct H as [H|H]; [discriminate H|]). exact H. }
  split; [exact A|]. split.
  - cbn. intros H. repeat (destruct H as [H|H]; [discriminate H|]). exact H.
  - intros (_ & _ & H & _). exact (A H).
Qed.

(* ================================================================= *)
(** ** The tracer *)

Section TracerFacts.
Context {M : Type} `{Mechanism M}.

Lemma state_after_cons (assembly : M) (pass : M * bool * Vec3)
    (log : list (M * bool * Vec3)) :
  state_after assembly (pass :: log) = state_after (fst (fst pass)) log.
Proof.
  reflexivity.
Qed.

(** The loop and its log: the loop returns when every pass does, with one
    position per pass appended to the curve it started from. *)
Lemma trace_loop_log (steps : nat) (deg : Q) (assembly : M) (acc : Curve) :
  trace_loop steps deg assembly acc =
  (log <- trace_log steps deg assembly ;;
   Ok (state_after assembly log, acc ++ map snd log))%outcome.
Proof.
  revert assembly acc. induction steps as [|steps IH]; intros assembly acc.
  - cbn. now rewrite app_nil_r.
  - cbn [trace_loop trace_log]. unfold trace_step.
    destruct (turn deg assembly) as [turned| |]; cbn [bind]; try reflexivity.
    destruct (update_state turned) as [[solved flag]| |]; cbn [bind]; try reflexivity.
    destruct (get_red_point_position solved) as [position| |]; cbn [bind]; try reflexivity.
    rewrite IH.
    destruct (trace_log steps deg solved) as [log| |]; cbn [bind]; try reflexivity.
    rewrite state_after_cons. cbn [fst snd map]. now rewrite <- app_assoc.
Qed.

Lemma trace_log_length (steps : nat) (deg : Q) (assembly : M)
    (log : list (M * bool * Vec3)) :
  trace_log steps deg assembly = Ok log -> length log = steps.
Proof.
  revert assembly log. induction steps as [|steps IH]; intros assembly log; cbn.
  - intros E. now inversion E.
  - destruct (trace_step deg assembly) as [[[solved flag] position]| |]; cbn;
      try discriminate.
    destruct (trace_log steps deg solved) as [rest| |] eqn:R; cbn; try discriminate.
    intros E. inversion E. cbn. f_equal. eapply IH, R.
Qed.

(** A trace raises at the first pass that raises, after the passes before
    it have returned. *)
Lemma trace_log_raises (steps : nat) (deg : Q) (assembly : M) (e : exn) :
  trace_log steps deg assembly = Raise e ->
  exists (i : nat) (prefix : list (M * bool * Vec3)),
    (i < steps)%nat /\ trace_log i deg assembly = Ok prefix /\
    trace_step deg (state_after assembly prefix) = Raise e.
Proof.
  revert assembly. induction steps as [|steps IH]; intros assembly; cbn [trace_log].
  - discriminate.
  - destruct (trace_step deg assembly) as [[[solved flag] position]| |] eqn:S1;
      cbn [bind]; try discriminate.
    + destruct (trace_log steps deg solved) as [rest| |] eqn:R; cbn [bind];
        try discriminate.
      intros E. inversion E. subst. destruct (IH _ R) as (i & prefix & L & P & F).
      exists (S i), ((solved, flag, position) :: prefix). split; [lia|]. split.
      * cbn [trace_log]. rewrite S1. cbn [bind]. rewrite P. reflexivity.
      * rewrite state_after_cons. exact F.
    + intros E. inversion E. subst. exists 0%nat, []. split; [lia|]. split.
      * reflexivity.
      * exact S1.
Qed.

End TracerFacts.

(** The loop does not read the flag of [update_state]. *)
Lemma trace_loop_relabel (M : Type) (mech : Mechanism M) (flag : M -> bool -> bool)
    (steps : nat) (deg : Q) (assembly : M) (acc : Curve) :
  trace_loop (H := relabel_flags flag mech) steps deg assembly acc =
  trace_loop (H := mech) steps deg assembly acc.
Proof.
  revert assembly acc. induction steps as [|steps IH]; intros assembly acc.
  - reflexivity.
  - cbn [trace_loop]. cbn [turn update_state get_red_point_position relabel_flags].
    destruct (@turn M mech deg assembly) as [turned| |]; cbn [bind]; try reflexivity.
    destruct (@update_state M mech turned) as [[solved success]| |]; cbn [bind];
      try reflexivity.
    destruct (@get_red_point_position M mech solved) as [position| |]; cbn [bind];
      try reflexivity.
    apply IH.
Qed.

(** C3, as the code has it: the flag of [update_state] is not read, so a
    solve that returns [False] neither ends the trace nor keeps its position
    out of the curve.  For every mechanism and every [n]: replacing the
    flags of the solves by any others leaves the trace as it is; when none
    of the calls raises, the trace makes all [n] passes and returns [n]
    positions, the i-th being the marked point after the i-th turn and
    solve; and the trace ends early only by an exception of [turn],
    [update_state] or [get_red_point_position], which it passes on from
    the first pass that raises, returning nothing. *)
Theorem get_assembly_curve_records_every_step :
  forall (M : Type) (mech : Mechanism M) (assembly : M) (n : nat),
    let deg := 360 / inject_Z (Z.of_nat n) in
    (forall flag : M -> bool -> bool,
       get_assembly_curve (H := relabel_flags flag mech) assembly n =
       get_assembly_curve (H := mech) assembly n) /\
    (forall log : list (M * bool * Vec3),
       trace_log n deg assembly = Ok log ->
       length log = n /\
       get_assembly_curve assembly n = Ok (state_after assembly log, map snd log)) /\
    (forall (final : M) (curve : Curve),
       get_assembly_curve assembly n = Ok (final, curve) ->
       length curve = n /\
       exists log : list (M * bool * Vec3),
         trace_log n deg assembly = Ok log /\
         curve = map snd log /\ final = state_after assembly log) /\
    (forall e : exn,
       get_assembly_curve assembly n = Raise e ->
       exists (i : nat) (prefix : list (M * bool * Vec3)),
         (i < n)%nat /\ trace_log i deg assembly = Ok prefix /\
         trace_step deg (state_after assembly prefix) = Raise e).
Proof.
  intros M mech assembly n deg. unfold get_assembly_curve. fold deg.
  split; [intros flag; apply trace_loop_relabel|].
  rewrite trace_loop_log. split; [|split].
  - intros log L. rewrite L. cbn. split; [eapply trace_log_length, L|reflexivity].
  - intros final curve. destruct (trace_log n deg assembly) as [log| |] eqn:L; cbn;
      try discriminate.
    intros E. inversion E. subst. rewrite length_map. split.
    + eapply trace_log_length, L.
    + exists log. auto.
  - intros e. destruct (trace_log n deg assembly) as [log| |] eqn:L; cbn;
      try discriminate.
    intros E. inversion E. subst. eapply trace_log_raises, L.
Qed.

(** A solve that raises ends the trace: the mechanism that seizes after a
    full turn, traced for two steps, returns no curve. *)
Lemma get_assembly_curve_records_every_step_witness :
  get_assembly_curve (H := seizing_mechanism) 0 2 = Raise IndexError /\
  exists (i : nat) (prefix : list (Q * bool * Vec3)),
    (i < 2)%nat /\
    trace_log (H := seizing_mechanism) i (360 / inject_Z (Z.of_nat 2)) 0 = Ok prefix /\
    trace_step (H := seizing_mechanism) (360 / inject_Z (Z.of_nat 2))
      (state_after 0 prefix) = Raise IndexError.
Proof.
  split; [reflexivity|].
  apply (get_assembly_curve_records_every_step seizing_mechanism 0 2). reflexivity.
Defined.

(** C3, as stated, fails on a mechanism that is jammed at every phase: both
    solves of a two-step trace fail, and the trace still returns two
    positions, the one of the first failed step and the one of the step
    after it. *)
Lemma jammed_trace_is_recorded :
  exists (log : list (Q * bool * Vec3)) (final : Q),
    trace_log (H := jammed_mechanism) 2 (360 / inject_Z (Z.of_nat 2)) 0 = Ok log /\
    map (fun pass => snd (fst pass)) log = [false; false] /\
    get_assembly_curve (H := jammed_mechanism) 0 2 =
    Ok (final,
        [mkVec3 (0 + 360 / inject_Z (Z.of_nat 2)) 0 0;
         mkVec3 (0 + 360 / inject_Z (Z.of_nat 2) + 360 / inject_Z (Z.of_nat 2)) 0 0]).
Proof.
  eexists. eexists. repeat split.
Qed.

(* ================================================================= *)
(** ** Dictionaries *)

Section DictFacts.
Variables K V : Type.
Variable K_eq_dec : forall a b : K, {a = b} + {a <> b}.
#[local] Abbreviation dict := (list (K * V)).
#[local] Abbreviation keys := (@PyDict.keys K V).
#[local] Abbreviation get := (PyDict.get K_eq_dec).
#[local] Abbreviation set := (PyDict.set K_eq_dec).
#[local] Abbreviation update := (PyDict.update K_eq_dec).

Lemma dict_keys_app (d e : dict) : keys (d ++ e) = keys d ++ keys e.
Proof. apply map_app. Qed.

Lemma dict_set_present (d : dict) (k : K) (v : V) :
  In k (keys d) -> keys (set d k v) = keys d.
Proof.
  induction d as [|[k' v'] d IH]; cbn; intros I.
  - contradiction.
  - destruct (K_eq_dec k' k) as [E|NE]; cbn.
    + reflexivity.
    + f_equal. apply IH. destruct I as [I|I]; [contradiction|exact I].
Qed.

Lemma dict_set_absent (d : dict) (k : K) (v : V) :
  ~ In k (keys d) -> set d k v = d ++ [(k, v)].
Proof.
  induction d as [|[k' v'] d IH]; cbn; intros I.
  - reflexivity.
  - destruct (K_eq_dec k' k) as [E|NE].
    + exfalso. apply I. left. exact E.
    + f_equal. apply IH. intros J. apply I. right. exact J.
Qed.

Lemma dict_set_app_absent (d e : dict) (k : K) (v : V) :
  ~ In k (keys d) -> set (d ++ e) k v = d ++ set e k v.
Proof.
  induction d as [|[k' v'] d IH]; cbn; intros I.
  - reflexivity.
  - destruct (K_eq_dec k' k) as [E|NE].
    + exfalso. apply I. left. exact E.
    + f_equal. apply IH. intros J. apply I. right. exact J.
Qed.

Lemma dict_keys_set_incl (d : dict) (k : K) (v : V) :
  incl (keys d) (keys (set d k v)) /\ In k (keys (set d k v)).
Proof.
  destruct (in_dec K_eq_dec k (keys d)) as [I|NI].
  - rewrite dict_set_present by exact I. split; [apply incl_refl | exact I].
  - rewrite dict_set_absent by exact NI. rewrite dict_keys_app. split.
    + apply incl_appl, incl_refl.
    + apply in_or_app. right. left. reflexivity.
Qed.

Lemma dict_set_NoDup (d : dict) (k : K) (v : V) :
  NoDup (keys d) -> NoDup (keys (set d k v)).
Proof.
  intros N. destruct (in_dec K_eq_dec k (keys d)) as [I|NI].
  - rewrite dict_set_present by exact I. exact N.
  - rewrite dict_set_absent by exact NI. rewrite dict_keys_app. cbn.
    apply NoDup_app; [exact N | constructor; [intros []|constructor] |].
    intros x Hx [<-|[]]. exact (NI Hx).
Qed.

Lemma dict_update_NoDup (e d : dict) : NoDup (keys d) -> NoDup (keys (update d e)).
Proof.
  unfold PyDict.update. revert d.
  induction e as [|[k v] e IH]; cbn; intros d N; [exact N|].
  apply IH, dict_set_NoDup, N.
Qed.

Lemma dict_update_incl (e d : dict) :
  incl (keys d) (keys (update d e)) /\ incl (keys e) (keys (update d e)).
Proof.
  unfold PyDict.update. revert d.
  induction e as [|[k v] e IH]; cbn; intros d.
  - split; [apply incl_refl | intros x []].
  - destruct (IH (set d k v)) as [A B].
    destruct (dict_keys_set_incl d k v) as [C D].
    split.
    + eapply incl_tran; eassumption.
    + intros x [<-|I]; [apply A, D | apply B, I].
Qed.

Lemma dict_get_app_absent (d e : dict) (k : K) :
  ~ In k (keys d) -> get (d ++ e) k = get e k.
Proof.
  induction d as [|[k' v'] d IH]; cbn; intros I.
  - reflexivity.
  - destruct (K_eq_dec k' k) as [E|NE].
    + exfalso. apply I. left. exact E.
    + apply IH. intros J. apply I. right. exact J.
Qed.

End DictFacts.

(* ================================================================= *)
(** ** The solver *)

Section SolverFacts.
Variable Param : Type.
Variable Param_eq_dec : forall a b : Param, {a = b} + {a <> b}.
Variable Con : Type.
Variable get_free_params : Con -> list (Param * Q).
Variable get_constraint : Con -> list Q -> list Q.
Variable minimize : (list Q -> Outcome Q) -> list Q -> OptimizeResult.

#[local] Abbreviation Assembly := (Asm.Assembly Param Con).
#[local] Abbreviation free_params_in_assembly :=
  (Asm.free_params_in_assembly Param_eq_dec get_free_params).
#[local] Abbreviation build_param_index :=
  (Asm.build_param_index Param_eq_dec get_free_params).
#[local] Abbreviation pkeys := (@PyDict.keys Param Q).
#[local] Abbreviation ikeys := (@PyDict.keys Param nat).
#[local] Abbreviation slots := (@Asm.slots Param).
#[local] Abbreviation well_formed := (@Asm.well_formed Param Con get_free_params).
#[local] Abbreviation shape_preserving := (Asm.shape_preserving minimize).

Lemma slots_keys (start : nat) (ks : list Param) : ikeys (slots start ks) = ks.
Proof.
  unfold Asm.slots, PyDict.keys. revert start.
  induction ks as [|k ks IH]; intros start; cbn; [|rewrite IH]; reflexivity.
Qed.

Lemma free_params_NoDup (cons : list Con) : NoDup (pkeys (free_params_in_assembly cons)).
Proof.
  unfold Asm.free_params_in_assembly.
  assert (G : forall d, NoDup (pkeys d) ->
            NoDup (pkeys (fold_left
              (fun params const => PyDict.update Param_eq_dec params (get_free_params const))
              cons d))).
  { induction cons as [|c cons IH]; cbn; intros d N; [exact N|].
    apply IH, dict_update_NoDup, N. }
  apply G. constructor.
Qed.

Lemma free_params_cover (cons : list Con) (con : Con) :
  In con cons ->
  incl (pkeys (get_free_params con)) (pkeys (free_params_in_assembly cons)).
Proof.
  unfold Asm.free_params_in_assembly.
  assert (G : forall d,
            incl (pkeys d) (pkeys (fold_left
              (fun params const => PyDict.update Param_eq_dec params (get_free_params const))
              cons d)) /\
            (In con cons ->
             incl (pkeys (get_free_params con)) (pkeys (fold_left
              (fun params const => PyDict.update Param_eq_dec params (get_free_params const))
              cons d)))).
  { induction cons as [|c cons IH]; cbn; intros d.
    - split; [apply incl_refl | intros []].
    - destruct (IH (PyDict.update Param_eq_dec d (get_free_params c))) as [A B].
      destruct (dict_update_incl Param_eq_dec (get_free_params c) d) as [C D].
      split.
      + eapply incl_tran; eassumption.
      + intros [<-|I]; [eapply incl_tran; eassumption | apply B, I]. }
  intros I. apply (G []), I.
Qed.

(** The comprehension over [enumerate] of distinct keys lists them with
    their positions. *)
Lemma index_fold (ks : list Param) (start : nat) (acc : list (Param * nat)) :
  NoDup (ikeys acc ++ ks) ->
  fold_left (fun acc ip => PyDict.set Param_eq_dec acc (snd ip) (fst ip))
    (combine (seq start (length ks)) ks) acc = acc ++ slots start ks.
Proof.
  revert start acc. induction ks as [|k ks IH]; intros start acc N; cbn.
  - now rewrite app_nil_r.
  - rewrite dict_set_absent.
    + rewrite IH.
      * rewrite <- app_assoc. reflexivity.
      * rewrite dict_keys_app, <- app_assoc. exact N.
    + apply NoDup_remove_2 in N. intros I. apply N, in_or_app. left. exact I.
Qed.

Lemma build_param_index_slots (cons : list Con) :
  build_param_index cons = slots 0 (pkeys (free_params_in_assembly cons)).
Proof.
  unfold Asm.build_param_index, Asm.enumerate.
  rewrite index_fold; [reflexivity|]. cbn. apply free_params_NoDup.
Qed.

Lemma slots_get (ks : list Param) (start : nat) (p : Param) :
  In p ks ->
  exists i, PyDict.get Param_eq_dec (slots start ks) p = Some i /\
            (start <= i < start + length ks)%nat.
Proof.
  unfold Asm.slots. revert start. induction ks as [|k ks IH]; intros start; cbn; [intros []|].
  intros I. destruct (Param_eq_dec k p) as [E|NE].
  - exists start. split; [reflexivity|lia].
  - destruct I as [I|I]; [contradiction|].
    destruct (IH (S start) I) as (i & G & B). exists i. split; [exact G|lia].
Qed.


#[local] Abbreviation select := (Asm.select Param_eq_dec).
#[local] Abbreviation slot_value := (Asm.slot_value Param_eq_dec).
#[local] Abbreviation residuals_of :=
  (Asm.residuals_of Param_eq_dec get_free_params get_constraint).
#[local] Abbreviation collect_residuals :=
  (Asm.collect_residuals Param_eq_dec get_free_params get_constraint).
#[local] Abbreviation assembly_const :=
  (Asm.assembly_const Param_eq_dec get_free_params get_constraint).
#[local] Abbreviation raw_residual_sum :=
  (Asm.raw_residual_sum Param_eq_dec get_free_params get_constraint).

Lemma mapM_total {A B : Type} (f : A -> Outcome B) (g : A -> B) (l : list A) :
  (forall a, In a l -> f a = Ok (g a)) -> Asm.mapM f l = Ok (map g l).
Proof.
  induction l as [|a l IH]; cbn; intros F; [reflexivity|].
  rewrite (F a) by (left; reflexivity). cbn.
  rewrite IH by (intros b I; apply F; right; exact I). reflexivity.
Qed.

Lemma select_slot (ks : list Param) (x : list Q) (p : Param) :
  (length ks <= length x)%nat -> In p ks ->
  select (slots 0 ks) x p = Ok (slot_value (slots 0 ks) x p).
Proof.
  intros L I. unfold Asm.select, Asm.slot_value.
  destruct (@slots_get ks 0%nat p I) as (i & G & B). rewrite G.
  rewrite (nth_error_nth' x 0) by lia. reflexivity.
Qed.

Lemma collect_residuals_total (ks : list Param) (x : list Q) (cons : list Con)
    (acc : list Q) :
  (length ks <= length x)%nat ->
  (forall con, In con cons -> incl (pkeys (get_free_params con)) ks) ->
  collect_residuals (slots 0 ks) x cons acc =
  Ok (acc ++ flat_map (residuals_of (slots 0 ks) x) cons).
Proof.
  intros L. revert acc. induction cons as [|con cons IH]; intros acc C; cbn.
  - now rewrite app_nil_r.
  - unfold Asm.constraint_args.
    rewrite (mapM_total _ (slot_value (slots 0 ks) x)).
    + cbn. rewrite IH by (intros c I; apply C; right; exact I).
      rewrite <- app_assoc. reflexivity.
    + intros p I. apply select_slot; [exact L|].
      apply (C con); [left; reflexivity | exact I].
Qed.

Lemma Qsum_cons (q : Q) (l : list Q) : Asm.Qsum (q :: l) = q + Asm.Qsum l.
Proof. reflexivity. Qed.

Lemma py_sum_from (l : list Q) (a : Q) : fold_left Qplus l a == a + Asm.Qsum l.
Proof.
  revert a. induction l as [|q l IH]; intros a; cbn [fold_left].
  - unfold Asm.Qsum; cbn [fold_right]. ring.
  - rewrite IH, Qsum_cons. ring.
Qed.

Lemma py_sum_Qsum (l : list Q) : Asm.py_sum l == Asm.Qsum l.
Proof. unfold Asm.py_sum. rewrite py_sum_from. ring. Qed.

Lemma Qsum_app (l m : list Q) : Asm.Qsum (l ++ m) == Asm.Qsum l + Asm.Qsum m.
Proof.
  induction l as [|q l IH]; cbn [app].
  - unfold Asm.Qsum at 2; cbn [fold_right]. ring.
  - rewrite !Qsum_cons, IH. ring.
Qed.

Lemma Qsum_flat_map {A : Type} (f : A -> list Q) (l : list A) :
  Asm.Qsum (flat_map f l) == Asm.Qsum (map (fun a => Asm.Qsum (f a)) l).
Proof.
  induction l as [|a l IH]; cbn [flat_map map].
  - reflexivity.
  - rewrite Qsum_app, Qsum_cons, IH. reflexivity.
Qed.

Lemma assembly_const_total (ks : list Param) (x : list Q) (cons : list Con) :
  (length ks <= length x)%nat ->
  (forall con, In con cons -> incl (pkeys (get_free_params con)) ks) ->
  assembly_const cons (slots 0 ks) x =
  Ok (Asm.py_sum (flat_map (residuals_of (slots 0 ks) x) cons)).
Proof.
  intros L C. unfold Asm.assembly_const.
  rewrite collect_residuals_total by assumption. reflexivity.
Qed.


Lemma combine_app {A B : Type} (l1 l2 : list A) (m1 m2 : list B) :
  length l1 = length m1 ->
  combine (l1 ++ l2) (m1 ++ m2) = combine l1 m1 ++ combine l2 m2.
Proof.
  revert m1. induction l1 as [|a l1 IH]; intros [|b m1] L; cbn in *; try discriminate.
  - reflexivity.
  - f_equal. apply IH. lia.
Qed.

Lemma keys_combine {B : Type} (ks : list Param) (vs : list B) :
  length ks = length vs -> map fst (combine ks vs) = ks.
Proof.
  revert vs. induction ks as [|k ks IH]; intros [|v vs] L; cbn in *; try discriminate.
  - reflexivity.
  - f_equal. apply IH. lia.
Qed.

Lemma combine_keys_values (d : list (Param * Q)) : combine (pkeys d) (map snd d) = d.
Proof.
  unfold PyDict.keys. induction d as [|[k v] d IH]; cbn; [|rewrite IH]; reflexivity.
Qed.

#[local] Abbreviation update_cur_state_from_array :=
  (Asm.update_cur_state_from_array Param_eq_dec).
#[local] Abbreviation lookup_state := (Asm.lookup_state Param_eq_dec).

(** Writing the slots in index order, with the first [length ks1] already
    written. *)
Lemma update_from_array_split (ks2 ks1 : list Param) (new1 vals2 new2 : list Q) :
  length ks1 = length new1 -> length ks2 = length vals2 -> length ks2 = length new2 ->
  NoDup (ks1 ++ ks2) ->
  update_cur_state_from_array (slots (length ks1) ks2) (new1 ++ new2)
    (combine ks1 new1 ++ combine ks2 vals2) =
  (combine ks1 new1 ++ combine ks2 new2, None).
Proof.
  revert ks1 new1 vals2 new2.
  induction ks2 as [|k ks2 IH]; intros ks1 new1 vals2 new2 L1 L2 L3 N.
  - destruct new2; [reflexivity|discriminate].
  - destruct vals2 as [|v vals2]; [discriminate|].
    destruct new2 as [|w new2]; [discriminate|].
    unfold Asm.slots. cbn [length seq combine Asm.update_cur_state_from_array].
    rewrite nth_error_app2 by lia.
    replace (length ks1 - length new1)%nat with 0%nat by lia. cbn [nth_error].
    rewrite dict_set_app_absent.
    2:{ unfold PyDict.keys. rewrite keys_combine by exact L1.
        apply NoDup_remove_2 in N. intros I. apply N, in_or_app. left. exact I. }
    cbn [PyDict.set]. destruct (Param_eq_dec k k) as [_|NE]; [|contradiction].
    specialize (IH (ks1 ++ [k]) (new1 ++ [w]) vals2 new2).
    rewrite !length_app in IH. cbn [length] in IH.
    rewrite !combine_app in IH by exact L1. cbn [combine] in IH.
    rewrite <- !app_assoc in IH. cbn [app] in IH.
    replace (length ks1 + 1)%nat with (S (length ks1)) in IH by lia.
    unfold Asm.slots in IH. apply IH; cbn in *; try lia. exact N.
Qed.

Lemma update_from_array_total (state : list (Param * Q)) (new : list Q) :
  NoDup (pkeys state) -> length new = length state ->
  update_cur_state_from_array (slots 0 (pkeys state)) new state =
  (combine (pkeys state) new, None).
Proof.
  intros N L.
  pose proof (@update_from_array_split (pkeys state) [] [] (map snd state) new) as U.
  cbn [length app combine] in U. rewrite combine_keys_values in U.
  apply U; unfold PyDict.keys; rewrite ?length_map; auto.
Qed.

Lemma lookup_suffix (d1 d2 : list (Param * Q)) :
  NoDup (pkeys (d1 ++ d2)) ->
  Asm.mapM (lookup_state (d1 ++ d2)) (pkeys d2) = Ok (map snd d2).
Proof.
  revert d1. induction d2 as [|[k v] d2 IH]; intros d1 N.
  - reflexivity.
  - change (pkeys ((k, v) :: d2)) with (k :: pkeys d2).
    change (map snd ((k, v) :: d2)) with (v :: map snd d2).
    cbn [Asm.mapM].
    assert (G : lookup_state (d1 ++ (k, v) :: d2) k = Ok v).
    { unfold Asm.lookup_state. rewrite dict_get_app_absent.
      - cbn. destruct (Param_eq_dec k k) as [_|NE]; [reflexivity|contradiction].
      - rewrite dict_keys_app in N. cbn in N. apply NoDup_remove_2 in N.
        intros I. apply N, in_or_app. left. exact I. }
    rewrite G. cbn [bind].
    specialize (IH (d1 ++ [(k, v)])). rewrite <- app_assoc in IH. cbn [app] in IH.
    rewrite IH by exact N. reflexivity.
Qed.

Lemma lookup_all (d : list (Param * Q)) :
  NoDup (pkeys d) -> Asm.mapM (lookup_state d) (pkeys d) = Ok (map snd d).
Proof. intros N. apply (lookup_suffix [] d N). Qed.


#[local] Abbreviation const := (Asm.const Param_eq_dec get_free_params get_constraint).
#[local] Abbreviation get_cur_state_array := (Asm.get_cur_state_array Param_eq_dec).
#[local] Abbreviation update_state :=
  (Asm.update_state Param_eq_dec get_free_params get_constraint minimize).
#[local] Abbreviation init :=
  (Asm.init Param_eq_dec get_free_params get_constraint minimize).

Lemma get_cur_state_array_total (self : Assembly) :
  well_formed self ->
  get_cur_state_array self = Ok (map snd (Asm.cur_state self)).
Proof.
  intros (N & I & _). unfold Asm.get_cur_state_array.
  rewrite I, slots_keys. apply lookup_all, N.
Qed.

Lemma set_cur_state_well_formed (self : Assembly) (new : list Q) :
  well_formed self -> length new = length (Asm.cur_state self) ->
  well_formed (Asm.set_cur_state self (combine (pkeys (Asm.cur_state self)) new)).
Proof.
  intros (N & I & C) L. unfold Asm.well_formed.
  cbn [Asm.set_cur_state Asm.cur_state Asm.param_index Asm.con_list].
  assert (E : pkeys (combine (pkeys (Asm.cur_state self)) new) = pkeys (Asm.cur_state self)).
  { unfold PyDict.keys at 1. apply keys_combine.
    unfold PyDict.keys. rewrite length_map. auto. }
  rewrite E. auto.
Qed.

Lemma values_combine (ks : list Param) (vs : list Q) :
  length ks = length vs -> map snd (combine ks vs) = vs.
Proof.
  revert vs. induction ks as [|k ks IH]; intros [|v vs] L; cbn in *; try discriminate.
  - reflexivity.
  - f_equal. apply IH. lia.
Qed.

(** What [update_state] does on a well-formed assembly. *)
Lemma update_state_spec (self : Assembly) :
  well_formed self -> shape_preserving ->
  let res := minimize (const self) (map snd (Asm.cur_state self)) in
  update_state self =
  (if success res
   then Asm.set_cur_state self (combine (pkeys (Asm.cur_state self)) (res_x res))
   else self,
   Ok (success res)).
Proof.
  intros W S res. unfold Asm.update_state.
  rewrite (get_cur_state_array_total W). fold res.
  destruct (success res) eqn:F; [|reflexivity].
  assert (L : length (res_x res) = length (Asm.cur_state self)).
  { unfold res. rewrite S, length_map. reflexivity. }
  destruct W as (N & I & C).
  rewrite I, update_from_array_total by assumption.
  assert (W' : well_formed (Asm.set_cur_state self
                 (combine (pkeys (Asm.cur_state self)) (res_x res)))).
  { apply set_cur_state_well_formed; [repeat split; assumption | exact L]. }
  rewrite (get_cur_state_array_total W'). cbn [bind Asm.set_cur_state Asm.cur_state].
  assert (LK : length (pkeys (Asm.cur_state self)) = length (res_x res)).
  { unfold PyDict.keys. rewrite length_map. auto. }
  rewrite values_combine by exact LK.
  unfold Asm.const.
  change (Asm.con_list (Asm.set_cur_state self
            (combine (pkeys (Asm.cur_state self)) (res_x res))))
    with (Asm.con_list self).
  change (Asm.param_index (Asm.set_cur_state self
            (combine (pkeys (Asm.cur_state self)) (res_x res))))
    with (Asm.param_index self).
  rewrite I.
  rewrite assembly_const_total; [reflexivity | lia | exact C].
Qed.


Lemma initial_well_formed (cons : list Con) (comps : list Component)
    (iters : nat) (tol : Q) (plot : bool) (n : nat) :
  well_formed
    {| Asm.components := comps; Asm.con_list := cons; Asm.iterations := iters;
       Asm.tolerance := tol; Asm.param_index := build_param_index cons;
       Asm.cur_state := free_params_in_assembly cons;
       Asm.plot_newt := plot; Asm.id := n |}.
Proof.
  unfold Asm.well_formed. cbn [Asm.cur_state Asm.param_index Asm.con_list].
  split; [apply free_params_NoDup|].
  split; [apply build_param_index_slots|].
  intros con I. apply free_params_cover, I.
Qed.

(** What the constructor does: it succeeds exactly when the minimizer
    reports success, and then holds the minimizer's result. *)
Lemma init_spec (cons : list Con) (comps : list Component)
    (iters : nat) (tol : Q) (plot : bool) (id_counter : nat) :
  shape_preserving ->
  let res := minimize (assembly_const cons (build_param_index cons))
               (map snd (free_params_in_assembly cons)) in
  init cons comps iters tol plot id_counter =
  if success res
  then Ok ({| Asm.components := comps; Asm.con_list := cons; Asm.iterations := iters;
              Asm.tolerance := tol; Asm.param_index := build_param_index cons;
              Asm.cur_state :=
                combine (pkeys (free_params_in_assembly cons)) (res_x res);
              Asm.plot_newt := plot; Asm.id := id_counter |}, S id_counter)
  else Raise AssemblyFailedToInit.
Proof.
  intros S res. unfold Asm.init, Asm.get_assembly_constraint.
  rewrite (update_state_spec (initial_well_formed cons comps iters tol plot 0) S).
  cbn [Asm.cur_state]. unfold Asm.const. cbn [Asm.con_list Asm.param_index].
  fold res. destruct (success res); reflexivity.
Qed.

Lemma slots_get_nth (ks : list Param) (start i : nat) (p : Param) :
  PyDict.get Param_eq_dec (slots start ks) p = Some i ->
  (start <= i)%nat /\ nth_error ks (i - start) = Some p.
Proof.
  unfold Asm.slots. revert start. induction ks as [|k ks IH]; intros start; cbn.
  - discriminate.
  - destruct (Param_eq_dec k p) as [E|NE].
    + intros [= <-]. rewrite Nat.sub_diag. subst k. split; [lia|reflexivity].
    + intros G. destruct (IH (S start) G) as [B N]. split; [lia|].
      replace (i - start)%nat with (S (i - S start)) by lia. exact N.
Qed.

Lemma slots_written (ks : list Param) (new : list Q) (start i : nat) (p : Param) :
  NoDup ks -> length ks = length new ->
  In (p, i) (slots start ks) ->
  PyDict.get Param_eq_dec (combine ks new) p = nth_error new (i - start).
Proof.
  unfold Asm.slots. revert new start.
  induction ks as [|k ks IH]; intros [|w new] start N L; cbn in *; try discriminate;
    try contradiction.
  intros [[= -> <-]|I].
  - destruct (Param_eq_dec p p) as [_|NE]; [|contradiction].
    now rewrite Nat.sub_diag.
  - inversion N as [|? ? NI N']; subst.
    destruct (Param_eq_dec k p) as [E|NE].
    + exfalso. subst k. apply NI. apply in_combine_l in I. exact I.
    + rewrite (IH new (S start) N') by (lia || exact I).
      assert (B : (S start <= i)%nat).
      { apply in_combine_r in I. apply in_seq in I. lia. }
      replace (i - start)%nat with (S (i - S start)) by lia. reflexivity.
Qed.

(** C4: on an assembly that satisfies the invariant, [update_state] returns
    the success flag of the minimizer; when the flag is [False] the assembly
    is left as it was, state vector included; when it is [True] the state
    holds, at every slot of the index, the entry of the minimizer's result at
    that slot, so that the state vector read back is that result.  There is
    no third outcome, and the invariant is kept. *)
Theorem update_state_atomic (self : Assembly) :
  well_formed self -> shape_preserving ->
  let res := minimize (const self) (map snd (Asm.cur_state self)) in
  snd (update_state self) = Ok (success res) /\
  (success res = false -> fst (update_state self) = self) /\
  (success res = true ->
     Asm.cur_state (fst (update_state self)) =
       combine (pkeys (Asm.cur_state self)) (res_x res) /\
     get_cur_state_array (fst (update_state self)) = Ok (res_x res) /\
     forall p i, In (p, i) (Asm.param_index self) ->
       PyDict.get Param_eq_dec (Asm.cur_state (fst (update_state self))) p =
       nth_error (res_x res) i) /\
  well_formed (fst (update_state self)).
Proof.
  intros W S res. rewrite (update_state_spec W S). fold res. cbn [fst snd].
  assert (L : length (res_x res) = length (Asm.cur_state self)).
  { unfold res. rewrite S, length_map. reflexivity. }
  assert (LK : length (pkeys (Asm.cur_state self)) = length (res_x res)).
  { unfold PyDict.keys. rewrite length_map. auto. }
  pose proof (@set_cur_state_well_formed self (res_x res) W L) as W'.
  split; [reflexivity|]. split; [intros ->; reflexivity|]. split.
  - intros F. rewrite F. cbn [Asm.set_cur_state Asm.cur_state]. split; [reflexivity|].
    split.
    + rewrite (get_cur_state_array_total W'). cbn [Asm.set_cur_state Asm.cur_state].
      rewrite values_combine by exact LK. reflexivity.
    + intros p i I. destruct W as (N & E & _). rewrite E in I.
      rewrite (@slots_written _ (res_x res) 0%nat i p N LK I). now rewrite Nat.sub_0_r.
  - destruct (success res); [exact W' | exact W].
Qed.

(** C1, as the code has it: a construction that succeeded is one whose
    solve got the success flag from the minimizer, and its committed state
    vector is the minimizer's result; the tolerance is stored and never
    compared with the objective, so the same construction succeeds with the
    same state under every tolerance. *)
Theorem construction_commits_minimizer_result
    (cons : list Con) (comps : list Component) (iters : nat) (tol : Q) (plot : bool)
    (id_counter : nat) (self : Assembly) (id_counter' : nat) :
  shape_preserving ->
  init cons comps iters tol plot id_counter = Ok (self, id_counter') ->
  let res := minimize (assembly_const cons (build_param_index cons))
               (map snd (free_params_in_assembly cons)) in
  success res = true /\
  get_cur_state_array self = Ok (res_x res) /\
  Asm.tolerance self = tol /\
  well_formed self /\
  forall tol' : Q, exists self' : Assembly,
    init cons comps iters tol' plot id_counter = Ok (self', id_counter') /\
    Asm.cur_state self' = Asm.cur_state self.
Proof.
  intros S E res.
  pose proof (init_spec cons comps iters tol plot id_counter S) as I.
  cbv zeta in I. fold res in I. rewrite I in E.
  destruct (success res) eqn:F; [|discriminate].
  injection E as <- <-.
  assert (L : length (res_x res) = length (free_params_in_assembly cons)).
  { unfold res. rewrite S, length_map. reflexivity. }
  pose proof (@set_cur_state_well_formed _ (res_x res)
                (initial_well_formed cons comps iters tol plot id_counter) L) as W.
  unfold Asm.set_cur_state in W.
  cbn [Asm.cur_state Asm.components Asm.con_list Asm.iterations
       Asm.tolerance Asm.param_index Asm.plot_newt Asm.id] in W.
  split; [reflexivity|]. split.
  - rewrite (get_cur_state_array_total W). cbn [Asm.cur_state].
    apply f_equal, values_combine.
    unfold PyDict.keys. rewrite length_map. auto.
  - split; [reflexivity|]. split; [exact W|].
    intros tol'. eexists. split.
    + pose proof (init_spec cons comps iters tol' plot id_counter S) as I'.
      cbv zeta in I'. fold res in I'. rewrite F in I'. exact I'.
    + reflexivity.
Qed.

(** The objective built at construction, on a vector with an entry for every
    slot. *)
Lemma assembly_const_raw_sum (cons : list Con) (x : list Q) :
  (length (pkeys (free_params_in_assembly cons)) <= length x)%nat ->
  let objective := fst (Asm.get_assembly_constraint Param_eq_dec get_free_params
                          get_constraint cons) in
  let index := snd (Asm.get_assembly_constraint Param_eq_dec get_free_params
                      get_constraint cons) in
  NoDup (ikeys index) /\
  (forall con p, In con cons -> In p (pkeys (get_free_params con)) ->
     exists i, PyDict.get Param_eq_dec index p = Some i /\
               nth_error x i = Some (slot_value index x p)) /\
  (forall p q i, PyDict.get Param_eq_dec index p = Some i ->
                 PyDict.get Param_eq_dec index q = Some i -> p = q) /\
  exists v, objective x = Ok v /\
            v = Asm.py_sum (flat_map (residuals_of index x) cons) /\
            v == raw_residual_sum cons index x.
Proof.
  intros L objective index.
  unfold objective, index, Asm.get_assembly_constraint. cbn [fst snd].
  rewrite build_param_index_slots.
  set (ks := pkeys (free_params_in_assembly cons)) in *.
  split; [rewrite slots_keys; apply free_params_NoDup|]. split.
  - intros con p I J.
    assert (K : In p ks) by (apply (@free_params_cover cons con I), J).
    destruct (@slots_get ks 0%nat p K) as (i & G & B). exists i. split; [exact G|].
    unfold Asm.slot_value. rewrite G. apply nth_error_nth'. lia.
  - split.
    + intros p q i G1 G2.
      apply slots_get_nth in G1, G2. destruct G1 as [_ G1], G2 as [_ G2]. congruence.
    + eexists. split; [|split; [reflexivity|]].
      * apply assembly_const_total; [exact L|].
        intros con I. apply free_params_cover, I.
      * rewrite py_sum_Qsum. unfold Asm.raw_residual_sum. apply Qsum_flat_map.
Qed.

End SolverFacts.

(** ** The solver on the small assemblies *)

Lemma toy_assembly_well_formed : Asm.well_formed Toy.free_params toy_assembly.
Proof.
  unfold Asm.well_formed. cbn. split; [repeat constructor; intros []|].
  split; [reflexivity|]. intros [] _. apply incl_refl.
Qed.

Lemma minimize_origin_shape : Asm.shape_preserving Toy.minimize_origin.
Proof. intros f x0. cbn. apply length_map. Qed.

Lemma minimize_fails_shape : Asm.shape_preserving Toy.minimize_fails.
Proof. intros f x0. reflexivity. Qed.

(** The invariant holds of every assembly the constructor returns. *)
Lemma init_well_formed
    (Param : Type) (Param_eq_dec : forall a b : Param, {a = b} + {a <> b})
    (Con : Type) (get_free_params : Con -> list (Param * Q))
    (get_constraint : Con -> list Q -> list Q)
    (minimize : (list Q -> Outcome Q) -> list Q -> OptimizeResult)
    (cons : list Con) (comps : list Component) (iters : nat) (tol : Q) (plot : bool)
    (id_counter : nat) (self : Asm.Assembly Param Con) (id_counter' : nat) :
  Asm.shape_preserving minimize ->
  Asm.init Param_eq_dec get_free_params get_constraint minimize
    cons comps iters tol plot id_counter = Ok (self, id_counter') ->
  Asm.well_formed get_free_params self.
Proof.
  intros S E.
  pose proof (init_spec Param_eq_dec get_free_params get_constraint
                cons comps iters tol plot id_counter S) as I.
  cbv zeta in I. rewrite I in E.
  destruct (success _); [|discriminate]. injection E as <- _.
  pose proof (@set_cur_state_well_formed Param Con get_free_params _
                (res_x (minimize
                   (Asm.assembly_const Param_eq_dec get_free_params get_constraint cons
                      (Asm.build_param_index Param_eq_dec get_free_params cons))
                   (map snd (Asm.free_params_in_assembly Param_eq_dec get_free_params cons))))
                (initial_well_formed Param_eq_dec get_free_params
                   cons comps iters tol plot id_counter)) as W.
  apply W. cbn [Asm.cur_state]. rewrite S, length_map. reflexivity.
Qed.

Lemma update_state_atomic_witness :
  (snd (Asm.update_state Nat.eq_dec Toy.free_params Toy.constraint
          Toy.minimize_origin toy_assembly) = Ok true /\
   Asm.cur_state (fst (Asm.update_state Nat.eq_dec Toy.free_params Toy.constraint
                         Toy.minimize_origin toy_assembly)) = [(0%nat, 0)]) /\
  (snd (Asm.update_state Nat.eq_dec Toy.free_params Toy.constraint
          Toy.minimize_fails toy_assembly) = Ok false /\
   fst (Asm.update_state Nat.eq_dec Toy.free_params Toy.constraint
          Toy.minimize_fails toy_assembly) = toy_assembly).
Proof.
  split.
  - destruct (update_state_atomic Nat.eq_dec Toy.constraint
                toy_assembly_well_formed minimize_origin_shape) as (A & _ & C & _).
    split; [exact A|]. apply C. reflexivity.
  - destruct (update_state_atomic Nat.eq_dec Toy.constraint
                toy_assembly_well_formed minimize_fails_shape) as (A & B & _).
    split; [exact A|]. apply B. reflexivity.
Defined.

Lemma construction_commits_minimizer_result_witness :
  success (Toy.minimize_origin
             (Asm.assembly_const Nat.eq_dec Toy.free_params Toy.constraint [tt]
                (Asm.build_param_index Nat.eq_dec Toy.free_params [tt]))
             (map snd (Asm.free_params_in_assembly Nat.eq_dec Toy.free_params [tt]))) = true /\
  Asm.get_cur_state_array Nat.eq_dec
    (Asm.set_cur_state toy_assembly [(0%nat, 0)]) = Ok [0].
Proof.
  destruct (@construction_commits_minimizer_result nat Nat.eq_dec unit
              Toy.free_params Toy.constraint Toy.minimize_origin
              [tt] [] Asm.default_iters Asm.default_tol false 0%nat
              (Asm.set_cur_state toy_assembly [(0%nat, 0)]) 1%nat
              minimize_origin_shape eq_refl) as (A & B & _).
  split; [exact A | exact B].
Defined.

(** C1, as stated, fails: for a connection whose residual [x * x + 1] has no
    zero, and a minimizer that reports success at the minimum [x = 0], the
    construction succeeds with the default tolerance [0.0001] and the
    objective at the committed state is [1]. *)
Lemma construction_succeeds_off_tolerance :
  exists (self : Asm.Assembly nat unit) (id_counter' : nat),
    Asm.init Nat.eq_dec Toy.free_params Toy.constraint Toy.minimize_origin
      [tt] [] Asm.default_iters Asm.default_tol false 0 = Ok (self, id_counter') /\
    (x <- Asm.get_cur_state_array Nat.eq_dec self ;;
     Asm.const Nat.eq_dec Toy.free_params Toy.constraint self x)%outcome = Ok 1 /\
    Asm.tolerance self < Qabs 1.
Proof.
  eexists. eexists. split; [vm_compute; reflexivity|].
  split; [vm_compute; reflexivity | reflexivity].
Qed.

(** C5: the objective that [get_assembly_constraint] builds is, on every
    vector with an entry for each slot, the raw sum of the residual terms of
    all connections: the terms are added as they are, from [0], connection
    after connection, which equals the sum over the connections of the sum of
    each one's terms.  Each residual function receives the entries of the
    vector at the slots of its parameters; the index has each parameter once
    and gives different parameters different slots.  Terms of opposite sign
    cancel: two connections with the residuals [1] and [-1] give the
    objective [0]. *)
Theorem objective_is_raw_residual_sum :
  (forall (Param : Type) (Param_eq_dec : forall a b : Param, {a = b} + {a <> b})
          (Con : Type) (get_free_params : Con -> list (Param * Q))
          (get_constraint : Con -> list Q -> list Q)
          (cons : list Con) (x : list Q),
      (length (PyDict.keys (Asm.free_params_in_assembly Param_eq_dec get_free_params cons))
       <= length x)%nat ->
      let objective :=
        fst (Asm.get_assembly_constraint Param_eq_dec get_free_params get_constraint cons) in
      let index :=
        snd (Asm.get_assembly_constraint Param_eq_dec get_free_params get_constraint cons) in
      NoDup (PyDict.keys index) /\
      (forall con p, In con cons -> In p (PyDict.keys (get_free_params con)) ->
         exists i, PyDict.get Param_eq_dec index p = Some i /\
                   nth_error x i = Some (Asm.slot_value Param_eq_dec index x p)) /\
      (forall p q i, PyDict.get Param_eq_dec index p = Some i ->
                     PyDict.get Param_eq_dec index q = Some i -> p = q) /\
      exists v, objective x = Ok v /\
                v = Asm.py_sum (flat_map
                      (Asm.residuals_of Param_eq_dec get_free_params get_constraint index x)
                      cons) /\
                v == Asm.raw_residual_sum Param_eq_dec get_free_params get_constraint
                       cons index x) /\
  (let index := Asm.build_param_index Nat.eq_dec Toy.shared_params [true; false] in
   Asm.residuals_of Nat.eq_dec Toy.shared_params Toy.shared_constraint
     index [1; 1] true = [1] /\
   Asm.residuals_of Nat.eq_dec Toy.shared_params Toy.shared_constraint
     index [1; 1] false = [- (1)] /\
   Asm.assembly_const Nat.eq_dec Toy.shared_params Toy.shared_constraint
     [true; false] index [1; 1] = Ok 0).
Proof.
  split.
  - intros. apply assembly_const_raw_sum. assumption.
  - repeat split.
Qed.

Lemma objective_is_raw_residual_sum_witness :
  exists v,
    fst (Asm.get_assembly_constraint Nat.eq_dec Toy.shared_params Toy.shared_constraint
           [true; false]) [1; 1] = Ok v /\
    v == Asm.raw_residual_sum Nat.eq_dec Toy.shared_params Toy.shared_constraint
           [true; false]
           (snd (Asm.get_assembly_constraint Nat.eq_dec Toy.shared_params
                   Toy.shared_constraint [true; false])) [1; 1].
Proof.
  destruct (proj1 objective_is_raw_residual_sum nat Nat.eq_dec bool
              Toy.shared_params Toy.shared_constraint [true; false] [1; 1])
    as (_ & _ & _ & v & A & _ & B).
  - vm_compute. lia.
  - exists v. split; [exact A | exact B].
Defined.

(* ================================================================= *)
(** ** The retry loops of the explorer *)

(** As [AssemblyA._parse_config] is written, no call of the constructor
    returns, and the explorer stops at its first [return_prototype()]. *)
Lemma AssemblyA_init_raises (base_init : AssemblyA -> Outcome AssemblyA) (cfg : Config) :
  AssemblyA_init base_init cfg = Raise TypeError.
Proof. reflexivity. Qed.

Lemma create_assemblyA_as_written (base_init : AssemblyA -> Outcome AssemblyA)
    (fuel : nat) (rng : RNG) :
  create_assemblyA (AssemblyA_init base_init) fuel rng = Raise TypeError.
Proof. reflexivity. Qed.

Lemma get_origin_assembly_as_written (base_init : AssemblyA -> Outcome AssemblyA)
    (mech : Mechanism AssemblyA) (fuel : nat) (self : AssemblyA_Sampler) (rng : RNG) :
  get_origin_assembly (AssemblyA_init base_init) fuel self rng = Raise TypeError.
Proof. reflexivity. Qed.

Lemma redraw_not_needed (fuel : nat) (current diff_val new_pos : Q) (rng : RNG) :
  Qltb new_pos 0 = false ->
  redraw_while_negative fuel current diff_val new_pos rng = Ok (new_pos, rng).
Proof.
  intros E. destruct fuel; cbn; rewrite E; reflexivity.
Qed.

(** Perturbing the prototype with draws that are all [0]. *)
Lemma sample_config_lowest_jitter (fuel start : nat) :
  sample_config fuel prototype_config (1 # 2) (1 # 2) (1 # 2) (zero_rng start) =
  Ok (lowest_jitter_config, zero_rng (11 + start)).
Proof.
  unfold sample_config, sample_position, sample_point.
  cbn [seq sample_position_axes sample_gear_parameters_from_current
       sample_stick_parameters_from_current next_draw zero_rng stream cursor
       prototype_config gear1_radius gear2_radius stick1_length stick2_length
       gear1_stick1_joint_location gear2_stick2_joint_location
       stick1_stick2_joint_location gear1_fixed_position gear2_fixed_position
       vec_get vec_set bind v0 v1 v2 px py pz].
  rewrite redraw_not_needed by (vm_compute; reflexivity).
  cbn [bind vec_set v0 v1 v2 px py pz sample_position_axes].
  vm_compute. reflexivity.
Qed.

Lemma is_dissimilar_default_gamma (curve : Curve) (db : list Curve) :
  is_dissimilar curve db default_gamma = true.
Proof.
  apply (is_dissimilar_with_constant_far (c := 3 # 2)). discriminate.
Qed.

(* ================================================================= *)
(** * Further properties *)

(** ** Rounding and the perturbation of extents *)

Lemma py_round2_idempotent (x : Q) : py_round2 (py_round2 x) = py_round2 x.
Proof.
  unfold py_round2 at 2 3. set (k := round_half_even (x * 100)).
  unfold py_round2, round_half_even. cbn [Qnum Qden Qmult].
  replace (k * 100)%Z with (k * Z.pos (100 * 1))%Z by lia.
  rewrite Z.div_mul, Z.mod_mul by lia. reflexivity.
Qed.

Lemma uniform_between (a b u : Q) :
  0 <= u <= 1 -> a <= b -> a <= uniform a b u <= b.
Proof.
  intros [U0 U1] L. unfold uniform.
  assert (0 <= (b - a) * u) by (apply Qmult_le_0_compat; lra).
  assert ((b - a) * u <= (b - a) * 1).
  { rewrite !(Qmult_comm (b - a)). apply Qmult_le_compat_r; lra. }
  lra.
Qed.

Lemma sample_gear_parameters_value (value diff_val : Q) (rng : RNG) :
  sample_gear_parameters_from_current value diff_val rng =
  (sample_radius_from_current value diff_val default_min_radius (stream rng (cursor rng)),
   mkRNG (stream rng) (S (cursor rng))).
Proof.
  unfold sample_gear_parameters_from_current, next_draw, sample_radius_from_current.
  destruct (Qltb value (1 # 2)); rewrite py_round2_idempotent; reflexivity.
Qed.

Lemma sample_stick_parameters_value (value diff_val : Q) (rng : RNG) :
  sample_stick_parameters_from_current value diff_val rng =
  (sample_length_from_current value diff_val default_min_length (stream rng (cursor rng)),
   mkRNG (stream rng) (S (cursor rng))).
Proof.
  unfold sample_stick_parameters_from_current, next_draw, sample_length_from_current.
  destruct (Qltb value (1 # 2)); rewrite py_round2_idempotent; reflexivity.
Qed.

Lemma sample_radius_default_floor (value diff_val u : Q) :
  1 # 10 <= sample_radius_from_current value diff_val default_min_radius u.
Proof.
  pose proof (sample_radius_rounded_floor value diff_val default_min_radius u) as R.
  assert (E : py_round2 (1 # 10) == 1 # 10) by reflexivity.
  unfold default_min_radius in *. lra.
Qed.

Lemma sample_length_default_floor (value diff_val u : Q) :
  1 # 10 <= sample_length_from_current value diff_val default_min_length u.
Proof.
  pose proof (sample_length_rounded_floor value diff_val default_min_length u) as R.
  assert (E : py_round2 (1 # 10) == 1 # 10) by reflexivity.
  unfold default_min_length in *. lra.
Qed.

(** X8.  The second rounding of [sample_gear_parameters_from_current] and
    [sample_stick_parameters_from_current] changes nothing: with one draw
    consumed, the value is that of [sample_radius_from_current] and
    [sample_length_from_current] at the default floor, and it is at least
    [0.1]. *)
Theorem sample_parameters_single_rounding :
  forall (value diff_val : Q) (rng : RNG),
    sample_gear_parameters_from_current value diff_val rng =
      (sample_radius_from_current value diff_val default_min_radius
         (stream rng (cursor rng)),
       mkRNG (stream rng) (S (cursor rng))) /\
    sample_stick_parameters_from_current value diff_val rng =
      (sample_length_from_current value diff_val default_min_length
         (stream rng (cursor rng)),
       mkRNG (stream rng) (S (cursor rng))) /\
    1 # 10 <= fst (sample_gear_parameters_from_current value diff_val rng) /\
    1 # 10 <= fst (sample_stick_parameters_from_current value diff_val rng).
Proof.
  intros value diff_val rng.
  rewrite sample_gear_parameters_value, sample_stick_parameters_value. cbn [fst].
  split; [reflexivity|]. split; [reflexivity|].
  split; [apply sample_radius_default_floor | apply sample_length_default_floor].
Qed.

(* ================================================================= *)
(** ** The dissimilarity filter, for any scorer *)

Lemma is_dissimilar_with_Forall (score : Curve -> Curve -> Q) (curve : Curve)
    (db : list Curve) (gamma : Q) :
  is_dissimilar_with score curve db gamma = true <->
  Forall (fun database_curve => gamma <= score curve database_curve) db.
Proof.
  induction db as [|d db IH]; cbn.
  - split; [constructor | reflexivity].
  - destruct (Qltb (score curve d) gamma) eqn:E.
    + apply Qltb_lt in E. split; [discriminate|].
      intros F. inversion F; subst. lra.
    + apply Qltb_ge in E. rewrite IH. split.
      * intros F. constructor; assumption.
      * intros F. inversion F; assumption.
Qed.

(** X16.  The filter accepts exactly when every curve of the database scores at
    least [gamma] against the candidate; a database put together from two
    parts accepts when both parts do, so a longer database never accepts
    more; and a candidate accepted at one threshold is accepted at every
    lower one. *)
Theorem is_dissimilar_with_all_far :
  forall (score : Curve -> Curve -> Q) (curve : Curve) (db : list Curve) (gamma : Q),
    (is_dissimilar_with score curve db gamma = true <->
     Forall (fun database_curve => gamma <= score curve database_curve) db) /\
    (forall more : list Curve,
       is_dissimilar_with score curve (db ++ more) gamma =
       is_dissimilar_with score curve db gamma && is_dissimilar_with score curve more gamma) /\
    (forall lower : Q, lower <= gamma ->
       is_dissimilar_with score curve db gamma = true ->
       is_dissimilar_with score curve db lower = true).
Proof.
  intros score curve db gamma.
  split; [apply is_dissimilar_with_Forall|]. split.
  - intros more. induction db as [|d db IH]; cbn; [reflexivity|].
    destruct (Qltb (score curve d) gamma); [reflexivity | exact IH].
  - intros lower L T. apply is_dissimilar_with_Forall.
    apply is_dissimilar_with_Forall in T.
    eapply Forall_impl; [|exact T]. cbn. intros c G. lra.
Qed.

(* ================================================================= *)
(** ** Distances and the validator *)

Lemma py_round2_sqrt_comp (d d' : Q) : d == d' -> py_round2_sqrt d = py_round2_sqrt d'.
Proof.
  intros E. unfold py_round2_sqrt.
  assert (M : 40000 * d == 40000 * d') by (rewrite E; reflexivity).
  rewrite (Qfloor_comp _ _ M).
  assert (B : Qeq_bool (inject_Z (Qfloor (40000 * d'))) (40000 * d) =
              Qeq_bool (inject_Z (Qfloor (40000 * d'))) (40000 * d')).
  { apply Qeqb_comp; [reflexivity | exact M]. }
  rewrite B. reflexivity.
Qed.

Lemma points_distance_squared (point1 point2 : Point) :
  points_distance point1 point2 = py_round2_sqrt (squared_distance point1 point2).
Proof.
  unfold points_distance, squared_distance, vector. cbn [zip_with fold_left].
  apply py_round2_sqrt_comp. ring.
Qed.

Lemma squared_distance_nonneg (point1 point2 : Point) : 0 <= squared_distance point1 point2.
Proof.
  unfold squared_distance, sq.
  set (a := px point1 - px point2). set (b := py point1 - py point2).
  set (c := pz point1 - pz point2). nra.
Qed.

(** The hundredth that [py_round2_sqrt] returns is within half a hundredth
    of the square root. *)
Lemma py_round2_sqrt_accurate (d : Q) :
  0 <= d ->
  let D := py_round2_sqrt d in
  0 <= D /\
  d <= (D + (1 # 200)) * (D + (1 # 200)) /\
  ((1 # 100) <= D -> (D - (1 # 200)) * (D - (1 # 200)) <= d).
Proof.
  intros P D. unfold py_round2_sqrt in D.
  set (m := 40000 * d) in *. set (f := Qfloor m) in *. set (s := Z.sqrt f) in *.
  assert (M0 : 0 <= m) by (unfold m; lra).
  assert (F0 : (0 <= f)%Z).
  { pose proof (Qfloor_resp_le _ _ M0) as H. exact H. }
  pose proof (Qfloor_le m) as F1. fold f in F1.
  pose proof (Qlt_floor m) as F2. fold f in F2.
  pose proof (Z.sqrt_spec f F0) as S. cbv zeta in S. fold s in S.
  pose proof (Z.sqrt_nonneg f) as S0. fold s in S0.
  set (N := if (Qeq_bool (inject_Z f) m && (s * s =? f)%Z && Z.odd s)%bool
            then (if Z.even (s / 2) then s / 2 else s / 2 + 1)%Z
            else ((s + 1) / 2)%Z) in *.
  assert (Z1 : m <= inject_Z ((2 * N + 1) * (2 * N + 1)) /\
               ((1 <= N)%Z -> inject_Z ((2 * N - 1) * (2 * N - 1)) <= m) /\ (0 <= N)%Z).
  { subst N.
    destruct (Qeq_bool (inject_Z f) m && (s * s =? f)%Z && Z.odd s)%bool eqn:T.
    - apply andb_true_iff in T. destruct T as [T O].
      apply andb_true_iff in T. destruct T as [E Sq].
      apply Qeq_bool_iff in E. apply Z.eqb_eq in Sq.
      rewrite <- Z.negb_even, negb_true_iff in O.
      pose proof (Z.div_mod s 2 ltac:(lia)) as DM.
      pose proof (Zmod_even s) as ME. rewrite O in ME.
      assert (K : s = (2 * (s / 2) + 1)%Z) by lia.
      set (k := (s / 2)%Z) in *.
      destruct (Z.even k).
      + split; [|split; [|lia]].
        * rewrite <- E, <- Zle_Qle. nia.
        * intros G. rewrite <- E, <- Zle_Qle. nia.
      + split; [|split; [|lia]].
        * rewrite <- E, <- Zle_Qle. nia.
        * intros G. rewrite <- E, <- Zle_Qle. nia.
    - pose proof (Z.div_mod (s + 1) 2 ltac:(lia)) as DM.
      pose proof (Z.mod_pos_bound (s + 1) 2 ltac:(lia)) as MB.
      set (n := ((s + 1) / 2)%Z) in *.
      split; [|split; [|lia]].
      + apply Qle_trans with (inject_Z (f + 1)); [apply Qlt_le_weak, F2|].
        rewrite <- Zle_Qle. nia.
      + intros G. apply Qle_trans with (inject_Z f); [|exact F1].
        rewrite <- Zle_Qle. nia. }
  destruct Z1 as (U & L & N0).
  assert (DN : D == inject_Z N * (1 # 100)).
  { unfold D. rewrite Qmult_inject_Z_l. rewrite Z.mul_1_r. reflexivity. }
  assert (L' : 1 <= inject_Z N ->
               (2 * inject_Z N - 1) * (2 * inject_Z N - 1) <= m).
  { intros G. assert (N1 : (1 <= N)%Z) by (rewrite Zle_Qle; exact G).
    specialize (L N1).
    replace (2 * N - 1)%Z with (2 * N + -1)%Z in L by lia.
    rewrite inject_Z_mult, inject_Z_plus, inject_Z_mult in L.
    change (inject_Z 2) with 2 in L. change (inject_Z (-1)) with (-1 # 1) in L.
    assert (E : 2 * inject_Z N + (-1 # 1) == 2 * inject_Z N - 1) by ring.
    rewrite E in L. exact L. }
  rewrite inject_Z_mult, inject_Z_plus, inject_Z_mult in U.
  change (inject_Z 2) with 2 in U. change (inject_Z 1) with 1 in U.
  assert (NQ : 0 <= inject_Z N) by (rewrite Zle_Qle in N0; exact N0).
  clear L N0 F1 F2 S S0 F0.
  set (n := inject_Z N) in *. clearbody n. clearbody D. clear N.
  unfold m in *. clear m f s.
  split; [rewrite DN; lra|]. split.
  - rewrite DN. nra.
  - intros G. rewrite DN in G |- *.
    assert (N1 : 1 <= n) by lra.
    specialize (L' N1). nra.
Qed.

(** X13.  [points_distance] does not depend on the order of its two points, is
    not negative, is [0] from a point to itself, and differs from the
    Euclidean distance by at most half a hundredth: with [D] the value
    returned, the sum of the squared coordinate differences is at most
    [(D + 0.005)^2] and, when [D >= 0.01], at least [(D - 0.005)^2]. *)
Theorem points_distance_rounds_euclidean :
  forall point1 point2 : Point,
    let D := points_distance point1 point2 in
    points_distance point2 point1 = D /\
    0 <= D /\
    points_distance point1 point1 == 0 /\
    squared_distance point1 point2 <= (D + (1 # 200)) * (D + (1 # 200)) /\
    ((1 # 100) <= D ->
     (D - (1 # 200)) * (D - (1 # 200)) <= squared_distance point1 point2).
Proof.
  intros point1 point2 D. unfold D. rewrite !points_distance_squared.
  pose proof (py_round2_sqrt_accurate (squared_distance_nonneg point1 point2)) as (A & B & C).
  split.
  - apply py_round2_sqrt_comp. unfold squared_distance, sq. ring.
  - split; [exact A|]. split; [|split; [exact B | exact C]].
    assert (E : squared_distance point1 point1 == 0) by (unfold squared_distance, sq; ring).
    rewrite (py_round2_sqrt_comp E). reflexivity.
Qed.

Lemma points_distance_sym (point1 point2 : Point) :
  points_distance point1 point2 = points_distance point2 point1.
Proof.
  rewrite !points_distance_squared. apply py_round2_sqrt_comp.
  unfold squared_distance, sq. ring.
Qed.

(** X14.  Exchanging the two anchors of a configuration does not change the
    verdict of the validator: the anchors enter only through their
    distance. *)
Theorem validator_ignores_anchor_order :
  forall assemblyA : AssemblyA,
    is_vaild_assembleA
      (mkAssemblyA (swap_anchors (config assemblyA)) (components assemblyA)
         (connections assemblyA) (red_point_component assemblyA) (anchor assemblyA)) =
    is_vaild_assembleA assemblyA.
Proof.
  intros assemblyA. unfold is_vaild_assembleA. cbn [config].
  set (cfg := config assemblyA).
  assert (S1 : stick1_shorter_than_joint (swap_anchors cfg) = stick1_shorter_than_joint cfg)
    by reflexivity.
  assert (S2 : stick2_shorter_than_joint (swap_anchors cfg) = stick2_shorter_than_joint cfg)
    by reflexivity.
  assert (G1 : gear1_joint_outside (swap_anchors cfg) = gear1_joint_outside cfg)
    by reflexivity.
  assert (G2 : gear2_joint_outside (swap_anchors cfg) = gear2_joint_outside cfg)
    by reflexivity.
  assert (T1 : sticks_too_short (swap_anchors cfg) = sticks_too_short cfg).
  { unfold sticks_too_short, swap_anchors. cbn [gear1_fixed_position gear2_fixed_position
      stick2_length stick1_stick2_joint_location gear1_radius gear2_radius].
    rewrite (points_distance_sym (gear2_fixed_position cfg)). reflexivity. }
  assert (T2 : sticks_too_long (swap_anchors cfg) = sticks_too_long cfg).
  { unfold sticks_too_long, swap_anchors. cbn [gear1_fixed_position gear2_fixed_position
      stick2_length stick1_stick2_joint_location gear1_radius gear2_radius].
    rewrite (points_distance_sym (gear2_fixed_position cfg)). reflexivity. }
  rewrite S1, S2, G1, G2, T1, T2. reflexivity.
Qed.

(* ================================================================= *)
(** ** Perturbation of positions *)

Lemma vec_get_set_other (v : Vec3) (i j : nat) (q : Q) :
  i <> j -> vec_get (vec_set v i q) j = vec_get v j.
Proof.
  intros NE. destruct i as [|[|[|i]]]; destruct j as [|[|[|j]]];
    try reflexivity; contradiction NE; reflexivity.
Qed.

Lemma vec_get_set_same (v : Vec3) (i : nat) (q : Q) :
  (i < 3)%nat -> vec_get (vec_set v i q) i = Ok q.
Proof.
  intros L. destruct i as [|[|[|i]]]; try reflexivity. lia.
Qed.

Lemma vec_get_in_range (v : Vec3) (i : nat) (q : Q) : vec_get v i = Ok q -> (i < 3)%nat.
Proof.
  destruct i as [|[|[|i]]]; cbn; intros E; try lia; discriminate.
Qed.

Lemma redraw_result (fuel : nat) (current diff_val new_pos : Q) (rng : RNG)
    (q : Q) (rng' : RNG) :
  redraw_while_negative fuel current diff_val new_pos rng = Ok (q, rng') ->
  0 <= q /\ stream rng' = stream rng /\ (cursor rng <= cursor rng')%nat.
Proof.
  revert new_pos rng. induction fuel as [|fuel IH]; intros new_pos rng; cbn;
    destruct (Qltb new_pos 0) eqn:E.
  - discriminate.
  - intros [= <- <-]. apply Qltb_ge in E. auto.
  - intros R. apply IH in R. cbn in R. destruct R as (A & B & C). repeat split; auto. lia.
  - intros [= <- <-]. apply Qltb_ge in E. auto.
Qed.

Lemma redraw_never_raises (fuel : nat) (current diff_val new_pos : Q) (rng : RNG) (e : exn) :
  redraw_while_negative fuel current diff_val new_pos rng <> Raise e.
Proof.
  revert new_pos rng. induction fuel as [|fuel IH]; intros new_pos rng; cbn;
    destruct (Qltb new_pos 0); try discriminate. apply IH.
Qed.

(** One pass of the loop of [sample_position], for an axis within the
    array. *)
Lemma sample_position_axes_step (fuel : nat) (i : nat) (rest : list nat) (v : Vec3)
    (diff_val : Q) (enable_negative : bool) (rng : RNG) (v' : Vec3) (rng' : RNG) :
  sample_position_axes fuel (i :: rest) v diff_val enable_negative rng = Ok (v', rng') ->
  exists q rng1,
    (i < 3)%nat /\
    (enable_negative = false -> 0 <= q) /\
    (enable_negative = true -> rng1 = mkRNG (stream rng) (S (cursor rng))) /\
    stream rng1 = stream rng /\ (S (cursor rng) <= cursor rng1)%nat /\
    sample_position_axes fuel rest (vec_set v i q) diff_val enable_negative rng1 =
    Ok (v', rng').
Proof.
  cbn [sample_position_axes].
  destruct (vec_get v i) as [current| |] eqn:G; cbn [bind]; try discriminate.
  apply vec_get_in_range in G. unfold next_draw.
  destruct enable_negative; cbn [bind].
  - intros R.
    exists (py_round2 (current + uniform (- diff_val) diff_val (stream rng (cursor rng)))),
           (mkRNG (stream rng) (S (cursor rng))).
    split; [exact G|]. split; [discriminate|]. split; [reflexivity|].
    split; [reflexivity|]. split; [cbn; lia | exact R].
  - destruct (redraw_while_negative _ _ _ _ _) as [[q rng1]| |] eqn:D; cbn [bind];
      try discriminate.
    intros R. apply redraw_result in D. cbn in D. destruct D as (A & B & C).
    exists q, rng1. repeat split; auto. discriminate.
Qed.

Lemma sample_position_axes_facts (fuel : nat) (axes : list nat) (v : Vec3)
    (diff_val : Q) (enable_negative : bool) (rng : RNG) (v' : Vec3) (rng' : RNG) :
  NoDup axes ->
  sample_position_axes fuel axes v diff_val enable_negative rng = Ok (v', rng') ->
  (forall i, In i axes -> (i < 3)%nat) /\
  (forall i, ~ In i axes -> vec_get v' i = vec_get v i) /\
  (enable_negative = false ->
   forall i, In i axes -> exists q, vec_get v' i = Ok q /\ 0 <= q) /\
  stream rng' = stream rng /\
  (enable_negative = true -> cursor rng' = (length axes + cursor rng)%nat) /\
  (length axes + cursor rng <= cursor rng')%nat.
Proof.
  revert v rng. induction axes as [|i rest IH]; intros v rng N R.
  - cbn in R. injection R as <- <-.
    repeat split; try reflexivity; try (intros; contradiction); cbn; lia.
  - apply sample_position_axes_step in R.
    destruct R as (q & rng1 & I3 & Q0 & R1 & St & Cu & R).
    inversion N as [|? ? NI N']; subst.
    destruct (IH _ _ N' R) as (A & B & C & D & E & F).
    split; [intros j [<-|J]; auto|].
    split.
    { intros j NJ. rewrite B by (intros J; apply NJ; right; exact J).
      apply vec_get_set_other. intros ->. apply NJ. left. reflexivity. }
    split.
    { intros EN j [<-|J].
      - exists q. split; [|auto]. rewrite (B i NI). apply vec_get_set_same, I3.
      - apply C; assumption. }
    split; [congruence|]. split.
    { intros EN. rewrite (E EN), (R1 EN). cbn. lia. }
    cbn [length]. lia.
Qed.

Lemma sample_position_beyond_array (fuel : nat) (v : Vec3) (diff_val : Q)
    (num_of_axis : nat) (rng : RNG) :
  (3 < num_of_axis)%nat ->
  sample_position fuel v diff_val num_of_axis true rng = Raise IndexError.
Proof.
  intros L. destruct num_of_axis as [|[|[|[|n]]]]; try lia. reflexivity.
Qed.

Lemma sample_position_facts (fuel : nat) (joint_location : Vec3) (diff_val : Q)
    (num_of_axis : nat) (enable_negative : bool) (rng : RNG) (sampled : Vec3) (rng' : RNG) :
  sample_position fuel joint_location diff_val num_of_axis enable_negative rng =
  Ok (sampled, rng') ->
  (num_of_axis <= 3)%nat /\
  (forall i, (num_of_axis <= i)%nat -> vec_get sampled i = vec_get joint_location i) /\
  (enable_negative = false ->
   forall i, (i < num_of_axis)%nat -> exists q, vec_get sampled i = Ok q /\ 0 <= q) /\
  stream rng' = stream rng /\
  (enable_negative = true -> cursor rng' = (num_of_axis + cursor rng)%nat) /\
  (num_of_axis + cursor rng <= cursor rng')%nat.
Proof.
  intros R. unfold sample_position in R.
  apply sample_position_axes_facts in R; [|apply seq_NoDup].
  rewrite length_seq in R. destruct R as (A & B & C & D & E & F).
  split.
  { destruct num_of_axis as [|n]; [lia|].
    assert (n < 3)%nat by (apply A, in_seq; lia). lia. }
  split; [intros i L; apply B; rewrite in_seq; lia|].
  split; [intros EN i L; apply C; [exact EN | apply in_seq; lia]|].
  auto.
Qed.

(** X10.  [sample_position] on a three-entry array.  With negative values
    allowed, more than three axes raise [IndexError].  Whenever it returns,
    at most three axes were asked for, the entries from [num_of_axis] on are
    untouched, the random stream is the same and at least one draw per axis
    was taken (exactly one when negative values are allowed), and with
    negative values forbidden every sampled entry is non-negative. *)
Theorem sample_position_touches_leading_axes :
  forall (fuel : nat) (joint_location : Vec3) (diff_val : Q) (num_of_axis : nat)
         (enable_negative : bool) (rng : RNG),
    ((3 < num_of_axis)%nat ->
     sample_position fuel joint_location diff_val num_of_axis true rng = Raise IndexError) /\
    (forall (sampled : Vec3) (rng' : RNG),
       sample_position fuel joint_location diff_val num_of_axis enable_negative rng =
       Ok (sampled, rng') ->
       (num_of_axis <= 3)%nat /\
       (forall i, (num_of_axis <= i)%nat -> vec_get sampled i = vec_get joint_location i) /\
       (enable_negative = false ->
        forall i, (i < num_of_axis)%nat -> exists q, vec_get sampled i = Ok q /\ 0 <= q) /\
       stream rng' = stream rng /\
       (enable_negative = true -> cursor rng' = (num_of_axis + cursor rng)%nat) /\
       (num_of_axis + cursor rng <= cursor rng')%nat).
Proof.
  intros fuel joint_location diff_val num_of_axis enable_negative rng.
  split; [apply sample_position_beyond_array|].
  intros sampled rng'. apply sample_position_facts.
Qed.

Lemma sample_position_touches_leading_axes_witness :
  vec_get (mkVec3 (350 # 100) 0 0) 1 = vec_get (mkVec3 4 0 0) 1 /\
  exists q, vec_get (mkVec3 (350 # 100) 0 0) 0 = Ok q /\ 0 <= q.
Proof.
  destruct (proj2 (sample_position_touches_leading_axes 0 (mkVec3 4 0 0) (1 # 2) 1 false
                     (zero_rng 0)) (mkVec3 (350 # 100) 0 0) (zero_rng 1) eq_refl)
    as (_ & A & B & _).
  split; [apply A; lia | apply B; [reflexivity | lia]].
Defined.

(* ================================================================= *)
(** ** Perturbation of a configuration *)

Lemma sample_position_axes_never_raises (fuel : nat) (axes : list nat) (v : Vec3)
    (diff_val : Q) (enable_negative : bool) (rng : RNG) (e : exn) :
  (forall i, In i axes -> (i < 3)%nat) ->
  sample_position_axes fuel axes v diff_val enable_negative rng <> Raise e.
Proof.
  revert v rng. induction axes as [|i rest IH]; intros v rng A; cbn [sample_position_axes].
  - discriminate.
  - assert (I3 : (i < 3)%nat) by (apply A; left; reflexivity).
    assert (G : vec_get v i = Ok (match i with 0%nat => v0 v | 1%nat => v1 v | _ => v2 v end)).
    { destruct i as [|[|[|i]]]; try reflexivity. lia. }
    rewrite G. cbn [bind]. unfold next_draw.
    destruct enable_negative; cbn [bind].
    + apply IH. intros j J. apply A. right. exact J.
    + destruct (redraw_while_negative _ _ _ _ _) as [[q rng1]| |] eqn:D; cbn [bind].
      * apply IH. intros j J. apply A. right. exact J.
      * exfalso. eapply redraw_never_raises. exact D.
      * discriminate.
Qed.

Lemma sample_position_never_raises (fuel : nat) (v : Vec3) (diff_val : Q)
    (num_of_axis : nat) (enable_negative : bool) (rng : RNG) (e : exn) :
  (num_of_axis <= 3)%nat ->
  sample_position fuel v diff_val num_of_axis enable_negative rng <> Raise e.
Proof.
  intros L. apply sample_position_axes_never_raises.
  intros i I. apply in_seq in I. lia.
Qed.

Lemma sample_point_never_raises (fuel : nat) (point : Point) (diff_val : Q)
    (num_of_axis : nat) (rng : RNG) (e : exn) :
  (num_of_axis <= 3)%nat ->
  sample_point fuel point diff_val num_of_axis rng <> Raise e.
Proof.
  intros L. unfold sample_point.
  destruct (sample_position _ _ _ _ _ _) as [[v r]| |] eqn:P; cbn [bind]; try discriminate.
  exfalso. eapply sample_position_never_raises; [|exact P]. exact L.
Qed.

Lemma sample_config_never_raises (fuel : nat) (cfg : Config)
    (gear_diff_val stick_diff_val position_diff_val : Q) (rng : RNG) (e : exn) :
  sample_config fuel cfg gear_diff_val stick_diff_val position_diff_val rng <> Raise e.
Proof.
  unfold sample_config.
  rewrite sample_gear_parameters_value; cbv beta iota.
  rewrite sample_gear_parameters_value; cbv beta iota.
  rewrite sample_stick_parameters_value; cbv beta iota.
  rewrite sample_stick_parameters_value; cbv beta iota.
  destruct (sample_position fuel (gear1_stick1_joint_location cfg) _ _ _ _)
    as [[g1s1 r5]| |] eqn:P1; cbn [bind]; try discriminate;
    try (exfalso; eapply sample_position_never_raises; [|exact P1]; lia).
  destruct (sample_position fuel (gear2_stick2_joint_location cfg) _ _ _ _)
    as [[g2s2 r6]| |] eqn:P2; cbn [bind]; try discriminate;
    try (exfalso; eapply sample_position_never_raises; [|exact P2]; lia).
  destruct (sample_position fuel (stick1_stick2_joint_location cfg) _ _ _ _)
    as [[s1s2 r7]| |] eqn:P3; cbn [bind]; try discriminate;
    try (exfalso; eapply sample_position_never_raises; [|exact P3]; lia).
Qed.

Lemma sample_point_facts (fuel : nat) (point : Point) (diff_val : Q) (rng : RNG)
    (sampled : Point) (rng' : RNG) :
  sample_point fuel point diff_val 1 rng = Ok (sampled, rng') ->
  py sampled = py point /\ pz sampled = pz point /\
  stream rng' = stream rng /\ cursor rng' = S (cursor rng).
Proof.
  unfold sample_point.
  destruct (sample_position _ _ _ _ _ _) as [[v r]| |] eqn:P; cbn [bind]; try discriminate.
  intros [= <- <-]. apply sample_position_facts in P.
  destruct P as (_ & A & _ & B & C & _).
  pose proof (A 1%nat ltac:(lia)) as A1. pose proof (A 2%nat ltac:(lia)) as A2.
  cbn in A1, A2. injection A1 as A1. injection A2 as A2.
  cbn [py pz]. rewrite (C eq_refl). auto.
Qed.

(** X11.  What every configuration that [sample_from_cur_assemblyA] produces has
    in common with the one it started from, and what it satisfies: the two
    orientations and the two joint points on the links' gear ends are
    unchanged; the stick2-to-stick1 point is [(stick2 length, 0, 0)], so
    the validator's test of link2 against it never fires; radii and lengths
    are at least [0.1]; the stick1-to-stick2 offset is not negative and its
    other two entries, the third entry of the gear joints and the second
    and third coordinate of the anchors are unchanged; at least eleven draws
    of the same stream were taken. *)
Theorem sample_config_invariants :
  forall (fuel : nat) (cfg : Config) (gear_diff_val stick_diff_val position_diff_val : Q)
         (rng : RNG) (cfg' : Config) (rng' : RNG),
    sample_config fuel cfg gear_diff_val stick_diff_val position_diff_val rng =
    Ok (cfg', rng') ->
    gear1_fixed_orientation cfg' = gear1_fixed_orientation cfg /\
    gear2_fixed_orientation cfg' = gear2_fixed_orientation cfg /\
    stick1_gear1_joint_location cfg' = stick1_gear1_joint_location cfg /\
    stick2_gear2_joint_location cfg' = stick2_gear2_joint_location cfg /\
    stick2_stick1_joint_location cfg' = mkVec3 (stick2_length cfg') 0 0 /\
    stick2_shorter_than_joint cfg' = false /\
    (1 # 10 <= gear1_radius cfg' /\ 1 # 10 <= gear2_radius cfg' /\
     1 # 10 <= stick1_length cfg' /\ 1 # 10 <= stick2_length cfg') /\
    (0 <= v0 (stick1_stick2_joint_location cfg') /\
     v1 (stick1_stick2_joint_location cfg') = v1 (stick1_stick2_joint_location cfg) /\
     v2 (stick1_stick2_joint_location cfg') = v2 (stick1_stick2_joint_location cfg)) /\
    (v2 (gear1_stick1_joint_location cfg') = v2 (gear1_stick1_joint_location cfg) /\
     v2 (gear2_stick2_joint_location cfg') = v2 (gear2_stick2_joint_location cfg)) /\
    (py (gear1_fixed_position cfg') = py (gear1_fixed_position cfg) /\
     pz (gear1_fixed_position cfg') = pz (gear1_fixed_position cfg) /\
     py (gear2_fixed_position cfg') = py (gear2_fixed_position cfg) /\
     pz (gear2_fixed_position cfg') = pz (gear2_fixed_position cfg)) /\
    stream rng' = stream rng /\ (11 + cursor rng <= cursor rng')%nat.
Proof.
  intros fuel cfg gd sd pd rng cfg' rng'. unfold sample_config.
  rewrite sample_gear_parameters_value; cbv beta iota.
  rewrite sample_gear_parameters_value; cbv beta iota.
  rewrite sample_stick_parameters_value; cbv beta iota.
  rewrite sample_stick_parameters_value; cbv beta iota.
  destruct (sample_position fuel (gear1_stick1_joint_location cfg) _ _ _ _)
    as [[g1s1 r5]| |] eqn:P1; cbn [bind]; try discriminate.
  destruct (sample_position fuel (gear2_stick2_joint_location cfg) _ _ _ _)
    as [[g2s2 r6]| |] eqn:P2; cbn [bind]; try discriminate.
  destruct (sample_position fuel (stick1_stick2_joint_location cfg) _ _ _ _)
    as [[s1s2 r7]| |] eqn:P3; cbn [bind]; try discriminate.
  destruct (sample_point fuel (gear1_fixed_position cfg) _ _ _)
    as [[p1 r8]| |] eqn:P4; cbn [bind]; try discriminate.
  destruct (sample_point fuel (gear2_fixed_position cfg) _ _ _)
    as [[p2 r9]| |] eqn:P5; cbn [bind]; try discriminate.
  intros [= <- <-].
  cbn [gear1_fixed_orientation gear2_fixed_orientation stick1_gear1_joint_location
       stick2_gear2_joint_location stick2_stick1_joint_location stick2_length
       gear1_radius gear2_radius stick1_length stick1_stick2_joint_location
       gear1_stick1_joint_location gear2_stick2_joint_location
       gear1_fixed_position gear2_fixed_position].
  apply sample_position_facts in P1, P2, P3.
  apply sample_point_facts in P4, P5.
  destruct P1 as (_ & A1 & _ & S1 & C1 & _).
  destruct P2 as (_ & A2 & _ & S2 & C2 & _).
  destruct P3 as (_ & A3 & N3 & S3 & _ & C3).
  destruct P4 as (Y4 & Z4 & S4 & C4). destruct P5 as (Y5 & Z5 & S5 & C5).
  specialize (C1 eq_refl). specialize (C2 eq_refl). cbn [stream cursor] in *.
  repeat split; try reflexivity; try assumption.
  - unfold stick2_shorter_than_joint. cbn [stick2_length stick2_stick1_joint_location v0].
    apply Qltb_ge, Qle_refl.
  - apply sample_radius_default_floor.
  - apply sample_radius_default_floor.
  - apply sample_length_default_floor.
  - apply sample_length_default_floor.
  - destruct (N3 eq_refl 0%nat ltac:(lia)) as (q & G & Q0).
    cbn in G. injection G as ->. exact Q0.
  - pose proof (A3 1%nat ltac:(lia)) as G. cbn in G. injection G as G. exact G.
  - pose proof (A3 2%nat ltac:(lia)) as G. cbn in G. injection G as G. exact G.
  - pose proof (A1 2%nat ltac:(lia)) as G. cbn in G. injection G as G. exact G.
  - pose proof (A2 2%nat ltac:(lia)) as G. cbn in G. injection G as G. exact G.
  - congruence.
  - lia.
Qed.

Lemma sample_config_invariants_witness :
  stick2_stick1_joint_location lowest_jitter_config =
    mkVec3 (stick2_length lowest_jitter_config) 0 0 /\
  stick2_shorter_than_joint lowest_jitter_config = false /\
  0 <= v0 (stick1_stick2_joint_location lowest_jitter_config).
Proof.
  destruct (sample_config_invariants 0 prototype_config (1 # 2) (1 # 2) (1 # 2) (zero_rng 0)
              (sample_config_lowest_jitter 0 0))
    as (_ & _ & _ & _ & A & B & _ & (C & _) & _).
  split; [exact A|]. split; [exact B | exact C].
Defined.

Lemma py_round2_nonneg (x : Q) : 0 <= x -> 0 <= py_round2 x.
Proof.
  intros L. apply py_round2_mono in L.
  assert (E : py_round2 0 == 0) by reflexivity. lra.
Qed.

(** X12.  Sampling a configuration never raises.  And from a configuration whose
    stick1-to-stick2 offset is at least the position jitter, with draws in
    [[0, 1]], it returns whatever the fuel, after exactly eleven draws: the
    offset cannot come out negative, so nothing is drawn again. *)
Theorem sample_config_returns :
  forall (fuel : nat) (cfg : Config) (gear_diff_val stick_diff_val position_diff_val : Q)
         (rng : RNG),
    (forall e : exn,
       sample_config fuel cfg gear_diff_val stick_diff_val position_diff_val rng <> Raise e) /\
    ((forall i : nat, 0 <= stream rng i <= 1) ->
     0 <= position_diff_val ->
     position_diff_val <= v0 (stick1_stick2_joint_location cfg) ->
     exists cfg' : Config,
       sample_config fuel cfg gear_diff_val stick_diff_val position_diff_val rng =
       Ok (cfg', mkRNG (stream rng) (11 + cursor rng))).
Proof.
  intros fuel cfg gd sd pd rng. split; [intros e; apply sample_config_never_raises|].
  intros U D X.
  unfold sample_config, sample_position, sample_point.
  rewrite sample_gear_parameters_value; cbv beta iota.
  rewrite sample_gear_parameters_value; cbv beta iota.
  rewrite sample_stick_parameters_value; cbv beta iota.
  rewrite sample_stick_parameters_value; cbv beta iota.
  cbn [seq sample_position_axes next_draw stream cursor vec_get vec_set bind
       v0 v1 v2 px py pz].
  rewrite redraw_not_needed.
  - cbn [bind sample_position_axes]. eexists. reflexivity.
  - apply Qltb_ge, py_round2_nonneg.
    assert (L : - pd <= pd) by lra.
    pose proof (uniform_between (U (S (S (S (S (S (S (S (S (cursor rng)))))))))) L)
      as [B _].
    lra.
Qed.

Lemma sample_config_returns_witness :
  exists cfg' : Config,
    sample_config 0 prototype_config (1 # 2) (1 # 2) (1 # 2) (zero_rng 0) =
    Ok (cfg', mkRNG (stream (zero_rng 0)) (11 + cursor (zero_rng 0))).
Proof.
  apply (proj2 (sample_config_returns 0 prototype_config (1 # 2) (1 # 2) (1 # 2)
                  (zero_rng 0))).
  - intros i. cbn. split; discriminate.
  - discriminate.
  - discriminate.
Defined.

(* ================================================================= *)
(** ** What leaves the retry loops *)

Section ExplorerRaises.
Variable new_AssemblyA : Config -> Outcome AssemblyA.

(** An exception that leaves [sample_from_cur_assemblyA] was raised by the
    constructor: the sampling of the configuration raises nothing. *)
Lemma sample_from_cur_assemblyA_raises (fuel : nat) (assemblyA : AssemblyA)
    (gear_diff_val stick_diff_val position_diff_val : Q) (rng : RNG) (e : exn) :
  sample_from_cur_assemblyA new_AssemblyA fuel assemblyA
    gear_diff_val stick_diff_val position_diff_val rng = Raise e ->
  exists cfg : Config, new_AssemblyA cfg = Raise e.
Proof.
  unfold sample_from_cur_assemblyA.
  destruct (sample_config fuel (config assemblyA) gear_diff_val stick_diff_val
              position_diff_val rng) as [[cfg r]|e'|] eqn:S; cbn [bind].
  - destruct (new_AssemblyA cfg) as [made|e'|] eqn:N; cbn [bind]; try discriminate.
    intros [= <-]. exists cfg. exact N.
  - exfalso. exact (sample_config_never_raises _ _ _ _ _ _ S).
  - discriminate.
Qed.

Lemma create_assemblyA_loop_raises (attempts fuel : nat) (candidate : AssemblyA)
    (rng : RNG) (e : exn) :
  create_assemblyA_loop new_AssemblyA attempts fuel candidate rng = Raise e ->
  exists cfg : Config, new_AssemblyA cfg = Raise e.
Proof.
  revert candidate rng.
  induction attempts as [|attempts IH]; intros candidate rng; cbn [create_assemblyA_loop];
    destruct (is_vaild_assembleA candidate); try discriminate.
  unfold return_prototype.
  destruct (new_AssemblyA prototype_config) as [prototype|e'|] eqn:P; cbn [bind];
    try discriminate.
  - destruct (sample_from_cur_assemblyA new_AssemblyA fuel prototype default_sample_diff
                default_sample_diff default_sample_diff rng) as [[next r]|e'|] eqn:S;
      cbn [bind]; try discriminate.
    + apply IH.
    + intros [= <-]. eapply sample_from_cur_assemblyA_raises, S.
  - intros [= <-]. exists prototype_config. exact P.
Qed.

Lemma create_assemblyA_raises (fuel : nat) (rng : RNG) (e : exn) :
  create_assemblyA new_AssemblyA fuel rng = Raise e ->
  exists cfg : Config, new_AssemblyA cfg = Raise e.
Proof.
  unfold create_assemblyA, return_prototype.
  destruct (new_AssemblyA prototype_config) as [prototype|e'|] eqn:P; cbn [bind];
    try discriminate.
  - destruct (sample_from_cur_assemblyA new_AssemblyA fuel prototype (1 # 2) (1 # 2)
                (1 # 2) rng) as [[next r]|e'|] eqn:S; cbn [bind]; try discriminate.
    + apply create_assemblyA_loop_raises.
    + intros [= <-]. eapply sample_from_cur_assemblyA_raises, S.
  - intros [= <-]. exists prototype_config. exact P.
Qed.

Context `{Mechanism AssemblyA}.

(** The test of the loop of [get_origin_assembly] holds the first time:
    [ofir_score] is [1.5], never below the default threshold [1]. *)
Lemma get_origin_assembly_loop_first_test (attempts fuel : nat) (self : AssemblyA_Sampler)
    (origin : AssemblyA) (curve : Curve) (rng : RNG) :
  get_origin_assembly_loop new_AssemblyA attempts fuel self origin curve rng =
  Ok (origin, curve, rng).
Proof.
  destruct attempts; cbn [get_origin_assembly_loop];
    rewrite is_dissimilar_default_gamma; reflexivity.
Qed.

Lemma get_origin_assembly_raises (fuel : nat) (self : AssemblyA_Sampler) (rng : RNG)
    (e : exn) :
  get_origin_assembly new_AssemblyA fuel self rng = Raise e ->
  (exists cfg : Config, new_AssemblyA cfg = Raise e) \/
  (exists created : AssemblyA,
     get_assembly_curve created (number_of_points self) = Raise e).
Proof.
  unfold get_origin_assembly.
  destruct (create_assemblyA new_AssemblyA fuel rng) as [[created r]|e'|] eqn:C;
    cbn [bind]; try discriminate.
  - destruct (get_assembly_curve created (number_of_points self))
      as [[traced curve]|e'|] eqn:G; cbn [bind]; try discriminate.
    + rewrite get_origin_assembly_loop_first_test. cbn [bind]. discriminate.
    + intros [= <-]. right. exists created. exact G.
  - intros [= <-]. left. eapply create_assemblyA_raises, C.
Qed.

End ExplorerRaises.

(** C6, as the code has it: neither retry loop counts its attempts, and
    neither gives up by an exception of its own.  Whatever the constructor
    and the tracer do, an exception that leaves [create_assemblyA] is one
    that the constructor [AssemblyA(config)] raised, and an exception that
    leaves [get_origin_assembly] is one that the constructor or the trace
    raised; the loop of [get_origin_assembly] is left at its first test,
    [ofir_score] being [1.5] and the default threshold [1]; and with the
    constructor as it is written neither function reports
    [SearchExhausted]. *)
Theorem retry_loops_raise_nothing_of_their_own :
  forall (new_AssemblyA : Config -> Outcome AssemblyA) (mech : Mechanism AssemblyA)
         (attempts fuel : nat) (self : AssemblyA_Sampler) (rng : RNG),
    (forall e : exn,
       create_assemblyA new_AssemblyA fuel rng = Raise e ->
       exists cfg : Config, new_AssemblyA cfg = Raise e) /\
    (forall e : exn,
       get_origin_assembly new_AssemblyA fuel self rng = Raise e ->
       (exists cfg : Config, new_AssemblyA cfg = Raise e) \/
       (exists created : AssemblyA,
          get_assembly_curve created (number_of_points self) = Raise e)) /\
    (forall (origin : AssemblyA) (curve : Curve),
       get_origin_assembly_loop new_AssemblyA attempts fuel self origin curve rng =
       Ok (origin, curve, rng)) /\
    (forall base_init : AssemblyA -> Outcome AssemblyA,
       create_assemblyA (AssemblyA_init base_init) fuel rng <> Raise SearchExhausted /\
       get_origin_assembly (AssemblyA_init base_init) fuel self rng <>
       Raise SearchExhausted).
Proof.
  intros new_AssemblyA mech attempts fuel self rng. split; [|split; [|split]].
  - intros e. apply create_assemblyA_raises.
  - intros e. apply get_origin_assembly_raises.
  - intros origin curve. apply get_origin_assembly_loop_first_test.
  - intros base_init.
    rewrite create_assemblyA_as_written, get_origin_assembly_as_written.
    split; discriminate.
Qed.

(** C6, as stated, fails on the code as it is written: under no number of
    attempts and no random stream does [create_assemblyA] report
    [SearchExhausted] or return an assembly, and [get_origin_assembly]
    neither; a call ends in the [TypeError] of the constructor. *)
Lemma explorer_never_reports_search_exhausted :
  create_assemblyA (AssemblyA_init (@Ok AssemblyA)) 1 (zero_rng 0) = Raise TypeError /\
  ~ (exists (fuel : nat) (rng : RNG),
       create_assemblyA (AssemblyA_init (@Ok AssemblyA)) fuel rng = Raise SearchExhausted \/
       exists made : AssemblyA * RNG,
         create_assemblyA (AssemblyA_init (@Ok AssemblyA)) fuel rng = Ok made) /\
  ~ (exists (mech : Mechanism AssemblyA) (fuel : nat) (self : AssemblyA_Sampler)
            (rng : RNG),
       get_origin_assembly (AssemblyA_init (@Ok AssemblyA)) fuel self rng =
       Raise SearchExhausted \/
       exists made : AssemblyA * Curve * AssemblyA_Sampler * RNG,
         get_origin_assembly (AssemblyA_init (@Ok AssemblyA)) fuel self rng = Ok made).
Proof.
  split; [reflexivity|]. split.
  - intros (fuel & rng & [E|[made E]]);
      rewrite create_assemblyA_as_written in E; discriminate E.
  - intros (mech & fuel & self & rng & [E|[made E]]);
      rewrite get_origin_assembly_as_written in E; discriminate E.
Qed.

(** X19.  As the constructor of [AssemblyA] is written, the explorer cannot
    produce an assembly: [return_prototype], [create_assemblyA] and
    [get_origin_assembly] raise [TypeError] on every call, before any random
    draw and any loop, and [sample_from_cur_assemblyA] raises [TypeError] as
    soon as its configuration is sampled (or is still drawing when the fuel
    ends); none of them returns. *)
Theorem explorer_raises_as_written :
  forall (base_init : AssemblyA -> Outcome AssemblyA) (mech : Mechanism AssemblyA)
         (fuel : nat) (assemblyA : AssemblyA)
         (gear_diff_val stick_diff_val position_diff_val : Q)
         (self : AssemblyA_Sampler) (rng : RNG),
    return_prototype (AssemblyA_init base_init) = Raise TypeError /\
    (sample_from_cur_assemblyA (AssemblyA_init base_init) fuel assemblyA
       gear_diff_val stick_diff_val position_diff_val rng = Raise TypeError \/
     sample_from_cur_assemblyA (AssemblyA_init base_init) fuel assemblyA
       gear_diff_val stick_diff_val position_diff_val rng = OutOfFuel) /\
    create_assemblyA (AssemblyA_init base_init) fuel rng = Raise TypeError /\
    get_origin_assembly (AssemblyA_init base_init) fuel self rng = Raise TypeError.
Proof.
  intros base_init mech fuel assemblyA gd sd pd self rng.
  split; [reflexivity|]. split; [|split; reflexivity].
  unfold sample_from_cur_assemblyA.
  destruct (sample_config fuel (config assemblyA) gd sd pd rng) as [[cfg r]|e|] eqn:S;
    cbn [bind].
  - left. reflexivity.
  - exfalso. exact (sample_config_never_raises _ _ _ _ _ _ S).
  - right. reflexivity.
Qed.

(* ================================================================= *)
(** ** More on the index and the state of an assembly *)

Section DictMore.
Variables K V : Type.
Variable K_eq_dec : forall a b : K, {a = b} + {a <> b}.
#[local] Abbreviation dkeys := (@PyDict.keys K V).
#[local] Abbreviation dget := (PyDict.get K_eq_dec).
#[local] Abbreviation dset := (PyDict.set K_eq_dec).
#[local] Abbreviation dupdate := (PyDict.update K_eq_dec).

Lemma dict_get_set (d : list (K * V)) (k p : K) (v : V) :
  dget (dset d k v) p = if K_eq_dec k p then Some v else dget d p.
Proof.
  induction d as [|[k' v'] d IH]; cbn.
  - destruct (K_eq_dec k p); reflexivity.
  - destruct (K_eq_dec k' k) as [E|NE]; cbn.
    + subst k'. destruct (K_eq_dec k p); reflexivity.
    + destruct (K_eq_dec k' p) as [E'|NE'].
      * subst k'. destruct (K_eq_dec k p) as [E''|_]; [subst; contradiction | reflexivity].
      * exact IH.
Qed.

Lemma dict_get_None (d : list (K * V)) (p : K) : dget d p = None <-> ~ In p (dkeys d).
Proof.
  induction d as [|[k v] d IH]; cbn.
  - split; [intros _ [] | reflexivity].
  - destruct (K_eq_dec k p) as [E|NE].
    + split; [discriminate | intros N; exfalso; apply N; left; exact E].
    + rewrite IH. split.
      * intros N [E|I]; [contradiction | exact (N I)].
      * intros N I. apply N. right. exact I.
Qed.

Lemma dict_keys_set_in (d : list (K * V)) (k p : K) (v : V) :
  In p (dkeys (dset d k v)) -> p = k \/ In p (dkeys d).
Proof.
  destruct (in_dec K_eq_dec k (dkeys d)) as [I|NI].
  - rewrite dict_set_present by exact I. auto.
  - rewrite dict_set_absent by exact NI. unfold PyDict.keys. rewrite map_app.
    intros J. apply in_app_or in J. destruct J as [J|[<-|[]]]; auto.
Qed.

Lemma dict_keys_update_in (e d : list (K * V)) (p : K) :
  In p (dkeys (dupdate d e)) -> In p (dkeys d) \/ In p (dkeys e).
Proof.
  unfold PyDict.update. revert d. induction e as [|[k v] e IH]; cbn; intros d I; [auto|].
  apply IH in I. destruct I as [I|I]; [|auto].
  apply dict_keys_set_in in I. destruct I as [->|I]; auto.
Qed.

(** After [d.update(e)] a key of [e] has the value [e] gives it, and any
    other key the value it had. *)
Lemma dict_get_update (e d : list (K * V)) (p : K) :
  NoDup (dkeys e) ->
  dget (dupdate d e) p = match dget e p with Some v => Some v | None => dget d p end.
Proof.
  unfold PyDict.update. revert d. induction e as [|[k v] e IH]; cbn; intros d N; [reflexivity|].
  inversion N as [|? ? NI N']; subst.
  rewrite IH by exact N'. rewrite dict_get_set.
  destruct (K_eq_dec k p) as [E|NE].
  - subst k. apply dict_get_None in NI. rewrite NI. reflexivity.
  - reflexivity.
Qed.

(** The keys that were there keep their places. *)
Lemma dict_update_prefix (e d : list (K * V)) :
  exists added, dkeys (dupdate d e) = dkeys d ++ added.
Proof.
  unfold PyDict.update. revert d.
  induction e as [|[k v] e IH]; cbn [fold_left fst snd]; intros d.
  - exists []. now rewrite app_nil_r.
  - destruct (IH (dset d k v)) as (added & E). rewrite E.
    destruct (in_dec K_eq_dec k (dkeys d)) as [I|NI].
    + rewrite dict_set_present by exact I. exists added. reflexivity.
    + rewrite dict_set_absent by exact NI. unfold PyDict.keys. rewrite map_app. cbn.
      exists (k :: added). rewrite <- app_assoc. reflexivity.
Qed.

End DictMore.

Section SolverMore.
Variable Param : Type.
Variable Param_eq_dec : forall a b : Param, {a = b} + {a <> b}.
Variable Con : Type.
Variable get_free_params : Con -> list (Param * Q).
Variable get_constraint : Con -> list Q -> list Q.

#[local] Abbreviation Assembly := (Asm.Assembly Param Con).
#[local] Abbreviation free_params_in_assembly :=
  (Asm.free_params_in_assembly Param_eq_dec get_free_params).
#[local] Abbreviation build_param_index :=
  (Asm.build_param_index Param_eq_dec get_free_params).
#[local] Abbreviation pkeys := (@PyDict.keys Param Q).
#[local] Abbreviation slots := (@Asm.slots Param).
#[local] Abbreviation well_formed := (@Asm.well_formed Param Con get_free_params).
#[local] Abbreviation select := (Asm.select Param_eq_dec).
#[local] Abbreviation slot_value := (Asm.slot_value Param_eq_dec).
#[local] Abbreviation assembly_const :=
  (Asm.assembly_const Param_eq_dec get_free_params get_constraint).
#[local] Abbreviation collect_residuals :=
  (Asm.collect_residuals Param_eq_dec get_free_params get_constraint).
#[local] Abbreviation update_cur_state_from_array :=
  (Asm.update_cur_state_from_array Param_eq_dec).
#[local] Abbreviation state_from_items := (Asm.state_from_items Param_eq_dec).

Lemma free_params_append (cons : list Con) (con : Con) :
  free_params_in_assembly (cons ++ [con]) =
  PyDict.update Param_eq_dec (free_params_in_assembly cons) (get_free_params con).
Proof.
  unfold Asm.free_params_in_assembly. rewrite fold_left_app. reflexivity.
Qed.

Lemma free_params_from_connections (cons : list Con) (p : Param) :
  In p (pkeys (free_params_in_assembly cons)) ->
  exists con, In con cons /\ In p (pkeys (get_free_params con)).
Proof.
  induction cons as [|con cons IH] using rev_ind.
  - intros [].
  - rewrite free_params_append. intros I.
    apply dict_keys_update_in in I. destruct I as [I|I].
    + destruct (IH I) as (c & A & B). exists c. split; [|exact B].
      apply in_or_app. left. exact A.
    + exists con. split; [|exact I]. apply in_or_app. right. left. reflexivity.
Qed.

Lemma slots_get_of_nth (ks : list Param) (start i : nat) (p : Param) :
  NoDup ks -> nth_error ks i = Some p ->
  PyDict.get Param_eq_dec (slots start ks) p = Some (start + i)%nat.
Proof.
  unfold Asm.slots. revert start i.
  induction ks as [|k ks IH]; intros start i N E.
  - destruct i; discriminate.
  - inversion N as [|? ? NI N']; subst. cbn [length seq combine PyDict.get].
    destruct i as [|i]; cbn in E.
    + injection E as ->. destruct (Param_eq_dec p p) as [_|NE]; [|contradiction].
      now rewrite Nat.add_0_r.
    + destruct (Param_eq_dec k p) as [->|NE].
      * exfalso. apply NI. eapply nth_error_In. exact E.
      * rewrite (IH (S start) i N' E). f_equal. lia.
Qed.

(** X1.  The index that the constructor builds holds exactly the parameters that
    the connections declare, each once, numbered [0, 1, ...] in the order in
    which they first occur; [free_params_cnt_in_assembly] counts them. *)
Theorem param_index_lists_connection_parameters (cons : list Con) :
  let ks := pkeys (free_params_in_assembly cons) in
  let index := build_param_index cons in
  NoDup ks /\
  (forall p, In p ks <-> exists con, In con cons /\ In p (pkeys (get_free_params con))) /\
  Asm.free_params_cnt_in_assembly Param_eq_dec get_free_params cons = length ks /\
  length index = length ks /\
  (forall p i, PyDict.get Param_eq_dec index p = Some i <-> nth_error ks i = Some p).
Proof.
  intros ks index.
  pose proof (free_params_NoDup Param_eq_dec get_free_params cons) as N. fold ks in N.
  split; [exact N|]. split.
  { intros p. split; [apply free_params_from_connections|].
    intros (con & A & B). exact (free_params_cover Param_eq_dec get_free_params cons con A p B). }
  split.
  { unfold Asm.free_params_cnt_in_assembly, ks, PyDict.keys. now rewrite length_map. }
  unfold index. rewrite build_param_index_slots. fold ks. split.
  { unfold Asm.slots. rewrite length_combine, length_seq. lia. }
  intros p i. split.
  - intros G. apply slots_get_nth in G. destruct G as [_ G].
    now rewrite Nat.sub_0_r in G.
  - intros E. apply (@slots_get_of_nth ks 0%nat i p N E).
Qed.

(** ** The objective on vectors of another length *)

Lemma select_in_range (ks : list Param) (x : list Q) (p : Param) :
  In p ks ->
  (exists v, select (slots 0 ks) x p = Ok v) \/ select (slots 0 ks) x p = Raise IndexError.
Proof.
  intros I. unfold Asm.select.
  destruct (slots_get Param_eq_dec ks 0 p I) as (i & G & _). rewrite G.
  destruct (nth_error x i); [left; eexists; reflexivity | right; reflexivity].
Qed.

Lemma mapM_ok_or_raise {A B : Type} (f : A -> Outcome B) (l : list A) (e : exn) :
  (forall a, In a l -> (exists b, f a = Ok b) \/ f a = Raise e) ->
  (exists bs, Asm.mapM f l = Ok bs) \/ Asm.mapM f l = Raise e.
Proof.
  induction l as [|a l IH]; intros F; cbn [Asm.mapM].
  - left. eexists. reflexivity.
  - destruct (F a (or_introl eq_refl)) as [(b & E)|E]; rewrite E; cbn [bind]; [|auto].
    destruct IH as [(bs & E')|E']; [intros; apply F; right; assumption| |];
      rewrite E'; cbn [bind]; [left; eexists; reflexivity | auto].
Qed.

Lemma mapM_raises {A B : Type} (f : A -> Outcome B) (l : list A) (e : exn) (a0 : A) :
  (forall a, In a l -> (exists b, f a = Ok b) \/ f a = Raise e) ->
  In a0 l -> f a0 = Raise e -> Asm.mapM f l = Raise e.
Proof.
  induction l as [|a l IH]; intros F I R; [contradiction|]. cbn [Asm.mapM].
  destruct (F a (or_introl eq_refl)) as [(b & E)|E]; rewrite E; cbn [bind]; [|reflexivity].
  destruct I as [->|I]; [congruence|].
  rewrite IH; [reflexivity | intros; apply F; right; assumption | exact I | exact R].
Qed.

Lemma collect_residuals_raises (ks : list Param) (x : list Q) (cons : list Con)
    (acc : list Q) (con0 : Con) (p0 : Param) :
  (forall con, In con cons -> incl (pkeys (get_free_params con)) ks) ->
  In con0 cons -> In p0 (pkeys (get_free_params con0)) ->
  select (slots 0 ks) x p0 = Raise IndexError ->
  collect_residuals (slots 0 ks) x cons acc = Raise IndexError.
Proof.
  revert acc. induction cons as [|con cons IH]; intros acc C I0 P0 R; [contradiction|].
  cbn [Asm.collect_residuals]. unfold Asm.constraint_args.
  assert (F : forall p, In p (pkeys (get_free_params con)) ->
              (exists v, select (slots 0 ks) x p = Ok v) \/
              select (slots 0 ks) x p = Raise IndexError).
  { intros p I. apply select_in_range. apply (C con (or_introl eq_refl)), I. }
  destruct I0 as [->|I0].
  - erewrite mapM_raises; [reflexivity | exact F | exact P0 | exact R].
  - destruct (@mapM_ok_or_raise _ _ (select (slots 0 ks) x)
                (pkeys (get_free_params con)) IndexError F) as [(args & E)|E];
      rewrite E; cbn [bind];
      [|reflexivity].
    apply IH; auto. intros c I. apply C. right. exact I.
Qed.

Lemma residuals_ignore_extra (ks : list Param) (x extra : list Q) (con : Con) :
  (length ks <= length x)%nat ->
  incl (pkeys (get_free_params con)) ks ->
  Asm.residuals_of Param_eq_dec get_free_params get_constraint (slots 0 ks) (x ++ extra) con =
  Asm.residuals_of Param_eq_dec get_free_params get_constraint (slots 0 ks) x con.
Proof.
  intros L C. unfold Asm.residuals_of. f_equal. apply map_ext_in. intros p I.
  unfold Asm.slot_value.
  destruct (slots_get Param_eq_dec ks 0 p (C p I)) as (i & G & B). rewrite G.
  apply app_nth1. lia.
Qed.

(** X2.  The objective reads the vector only at the slots of the index: on a
    vector with fewer entries than there are parameters it raises
    [IndexError] (never [KeyError]), and entries beyond the last slot do not
    change its value. *)
Theorem objective_reads_indexed_slots (cons : list Con) (x : list Q) :
  let index := build_param_index cons in
  let n := Asm.free_params_cnt_in_assembly Param_eq_dec get_free_params cons in
  ((length x < n)%nat -> assembly_const cons index x = Raise IndexError) /\
  ((n <= length x)%nat ->
   forall extra, assembly_const cons index (x ++ extra) = assembly_const cons index x).
Proof.
  intros index n. unfold index. rewrite build_param_index_slots.
  set (ks := pkeys (free_params_in_assembly cons)).
  assert (NK : n = length ks).
  { unfold n, Asm.free_params_cnt_in_assembly, ks, PyDict.keys. now rewrite length_map. }
  assert (C : forall con, In con cons -> incl (pkeys (get_free_params con)) ks).
  { intros con I. apply free_params_cover, I. }
  pose proof (free_params_NoDup Param_eq_dec get_free_params cons) as N. fold ks in N.
  split.
  - intros L. rewrite NK in L.
    destruct (nth_error ks (length x)) as [p0|] eqn:E;
      [|apply nth_error_None in E; lia].
    assert (I0 : In p0 ks) by (eapply nth_error_In; exact E).
    destruct (free_params_from_connections cons p0 I0) as (con0 & A & B).
    unfold Asm.assembly_const.
    rewrite (@collect_residuals_raises ks x cons [] con0 p0 C A B); [reflexivity|].
    unfold Asm.select. rewrite (@slots_get_of_nth ks 0%nat (length x) p0 N E). cbn [Nat.add].
    assert (X : nth_error x (length x) = None) by (apply nth_error_None; lia).
    rewrite X. reflexivity.
  - intros L extra. rewrite NK in L.
    rewrite !(assembly_const_total Param_eq_dec get_free_params get_constraint) ;
      try assumption; [|rewrite length_app; lia].
    f_equal. f_equal.
    assert (G : forall l, (forall con, In con l -> In con cons) ->
              flat_map (Asm.residuals_of Param_eq_dec get_free_params get_constraint
                          (slots 0 ks) (x ++ extra)) l =
              flat_map (Asm.residuals_of Param_eq_dec get_free_params get_constraint
                          (slots 0 ks) x) l).
    { induction l as [|c l IH]; intros S; cbn [flat_map]; [reflexivity|].
      rewrite residuals_ignore_extra; [|exact L | apply C, S; left; reflexivity].
      rewrite IH; [reflexivity | intros c' I; apply S; right; exact I]. }
    apply G. auto.
Qed.

End SolverMore.

Section SolverState.
Variable Param : Type.
Variable Param_eq_dec : forall a b : Param, {a = b} + {a <> b}.
Variable Con : Type.
Variable get_free_params : Con -> list (Param * Q).

#[local] Abbreviation Assembly := (Asm.Assembly Param Con).
#[local] Abbreviation free_params_in_assembly :=
  (Asm.free_params_in_assembly Param_eq_dec get_free_params).
#[local] Abbreviation pkeys := (@PyDict.keys Param Q).
#[local] Abbreviation slots := (@Asm.slots Param).
#[local] Abbreviation well_formed := (@Asm.well_formed Param Con get_free_params).
#[local] Abbreviation update_cur_state_from_array :=
  (Asm.update_cur_state_from_array Param_eq_dec).
#[local] Abbreviation state_from_items := (Asm.state_from_items Param_eq_dec).

Lemma state_from_items_split (ks2 ks1 : list Param) (new1 new2 : list Q) :
  length ks1 = length new1 -> length ks2 = length new2 -> NoDup (ks1 ++ ks2) ->
  state_from_items (slots (length ks1) ks2) (new1 ++ new2) (combine ks1 new1) =
  Ok (combine ks1 new1 ++ combine ks2 new2).
Proof.
  revert ks1 new1 new2.
  induction ks2 as [|k ks2 IH]; intros ks1 new1 new2 L1 L2 N.
  - destruct new2; [|discriminate]. cbn. now rewrite app_nil_r.
  - destruct new2 as [|w new2]; [discriminate|].
    unfold Asm.slots. cbn [length seq combine Asm.state_from_items].
    rewrite nth_error_app2 by lia.
    replace (length ks1 - length new1)%nat with 0%nat by lia. cbn [nth_error].
    rewrite dict_set_absent.
    2:{ unfold PyDict.keys. rewrite keys_combine by exact L1.
        apply NoDup_remove_2 in N. intros I. apply N, in_or_app. left. exact I. }
    specialize (IH (ks1 ++ [k]) (new1 ++ [w]) new2).
    rewrite !length_app in IH. cbn [length] in IH.
    rewrite !combine_app in IH by exact L1. cbn [combine] in IH.
    rewrite <- !app_assoc in IH. cbn [app] in IH.
    replace (length ks1 + 1)%nat with (S (length ks1)) in IH by lia.
    unfold Asm.slots in IH. apply IH; cbn in *; try lia.
    exact N.
Qed.

Lemma state_from_items_short (ks2 ks1 : list Param) (new1 new2 : list Q) :
  length ks1 = length new1 -> (length new2 < length ks2)%nat -> NoDup (ks1 ++ ks2) ->
  state_from_items (slots (length ks1) ks2) (new1 ++ new2) (combine ks1 new1) =
  Raise IndexError.
Proof.
  revert ks1 new1 new2.
  induction ks2 as [|k ks2 IH]; intros ks1 new1 new2 L1 L2 N; [cbn in L2; lia|].
  unfold Asm.slots. cbn [length seq combine Asm.state_from_items].
  destruct new2 as [|w new2].
  - rewrite app_nil_r.
    assert (X : nth_error new1 (length ks1) = None) by (apply nth_error_None; lia).
    rewrite X. reflexivity.
  - rewrite nth_error_app2 by lia.
    replace (length ks1 - length new1)%nat with 0%nat by lia. cbn [nth_error].
    rewrite dict_set_absent.
    2:{ unfold PyDict.keys. rewrite keys_combine by exact L1.
        apply NoDup_remove_2 in N. intros I. apply N, in_or_app. left. exact I. }
    specialize (IH (ks1 ++ [k]) (new1 ++ [w]) new2).
    rewrite !length_app in IH. cbn [length] in IH.
    rewrite !combine_app in IH by exact L1. cbn [combine] in IH.
    rewrite <- !app_assoc in IH. cbn [app] in IH.
    replace (length ks1 + 1)%nat with (S (length ks1)) in IH by lia.
    unfold Asm.slots in IH. apply IH; cbn in *; try lia.
    exact N.
Qed.

Lemma update_from_array_short (ks2 ks1 : list Param) (new1 vals2 new2 : list Q) :
  length ks1 = length new1 -> length ks2 = length vals2 ->
  (length new2 < length ks2)%nat -> NoDup (ks1 ++ ks2) ->
  update_cur_state_from_array (slots (length ks1) ks2) (new1 ++ new2)
    (combine ks1 new1 ++ combine ks2 vals2) =
  (combine ks1 new1 ++ combine (firstn (length new2) ks2) new2
     ++ skipn (length new2) (combine ks2 vals2),
   Some IndexError).
Proof.
  revert ks1 new1 vals2 new2.
  induction ks2 as [|k ks2 IH]; intros ks1 new1 vals2 new2 L1 L2 L3 N; [cbn in L3; lia|].
  destruct vals2 as [|v vals2]; [discriminate|].
  unfold Asm.slots. cbn [length seq combine Asm.update_cur_state_from_array].
  destruct new2 as [|w new2].
  - rewrite app_nil_r.
    assert (X : nth_error new1 (length ks1) = None) by (apply nth_error_None; lia).
    rewrite X. reflexivity.
  - rewrite nth_error_app2 by lia.
    replace (length ks1 - length new1)%nat with 0%nat by lia. cbn [nth_error].
    rewrite dict_set_app_absent.
    2:{ unfold PyDict.keys. rewrite keys_combine by exact L1.
        apply NoDup_remove_2 in N. intros I. apply N, in_or_app. left. exact I. }
    cbn [PyDict.set]. destruct (Param_eq_dec k k) as [_|NE]; [|contradiction].
    specialize (IH (ks1 ++ [k]) (new1 ++ [w]) vals2 new2).
    rewrite !length_app in IH. cbn [length] in IH.
    rewrite !combine_app in IH by exact L1. cbn [combine] in IH.
    rewrite <- !app_assoc in IH. cbn [app] in IH.
    replace (length ks1 + 1)%nat with (S (length ks1)) in IH by lia.
    unfold Asm.slots in IH. cbn [length firstn skipn combine app].
    apply IH; cbn in *; try lia.
    exact N.
Qed.

(** X3.  Arrays and states convert into each other.  On an assembly that
    satisfies the invariant and an array with one entry per slot,
    [get_state_from_array] returns the keys of the state paired with the
    entries of the array, which is also the state that
    [update_cur_state_from_array] leaves; reading that state back with
    [get_cur_state_array] gives the array, and converting the array of the
    current state gives the current state. *)
Theorem state_array_round_trip (self : Assembly) (state_array : list Q) :
  well_formed self ->
  length state_array = length (Asm.cur_state self) ->
  let ks := pkeys (Asm.cur_state self) in
  Asm.get_state_from_array Param_eq_dec self state_array = Ok (combine ks state_array) /\
  update_cur_state_from_array (Asm.param_index self) state_array (Asm.cur_state self) =
    (combine ks state_array, None) /\
  Asm.get_cur_state_array Param_eq_dec (Asm.set_cur_state self (combine ks state_array)) =
    Ok state_array /\
  (x <- Asm.get_cur_state_array Param_eq_dec self ;;
   Asm.get_state_from_array Param_eq_dec self x)%outcome = Ok (Asm.cur_state self).
Proof.
  intros W L ks. subst ks. pose proof W as (N & I & C).
  set (ks := pkeys (Asm.cur_state self)) in *.
  assert (LK : length ks = length state_array).
  { unfold ks, PyDict.keys. rewrite length_map. auto. }
  assert (G : forall arr, length ks = length arr ->
              Asm.get_state_from_array Param_eq_dec self arr = Ok (combine ks arr)).
  { intros arr LA. unfold Asm.get_state_from_array. rewrite I.
    apply (@state_from_items_split ks [] [] arr); auto. }
  split; [apply G, LK|]. split.
  { rewrite I. apply update_from_array_total; assumption. }
  split.
  { pose proof (set_cur_state_well_formed state_array W L) as W'. fold ks in W'.
    rewrite (get_cur_state_array_total Param_eq_dec W').
    unfold Asm.set_cur_state. cbn [Asm.cur_state]. f_equal. apply values_combine, LK. }
  rewrite (get_cur_state_array_total Param_eq_dec W). cbn [bind].
  rewrite G by (unfold ks, PyDict.keys; now rewrite !length_map).
  f_equal. apply combine_keys_values.
Qed.

(** X4.  An array that is too short is caught late: [get_state_from_array]
    raises [IndexError], and [update_cur_state_from_array] raises it after
    it has overwritten the slots that the array covers, the remaining slots
    keeping their values. *)
Theorem short_array_is_written_in_part (self : Assembly) (state_array : list Q) :
  well_formed self ->
  (length state_array < length (Asm.cur_state self))%nat ->
  let n := length state_array in
  Asm.get_state_from_array Param_eq_dec self state_array = Raise IndexError /\
  update_cur_state_from_array (Asm.param_index self) state_array (Asm.cur_state self) =
    (combine (firstn n (pkeys (Asm.cur_state self))) state_array
       ++ skipn n (Asm.cur_state self),
     Some IndexError).
Proof.
  intros (N & I & C) L n.
  assert (LK : (length state_array < length (pkeys (Asm.cur_state self)))%nat).
  { unfold PyDict.keys. rewrite length_map. exact L. }
  split.
  - unfold Asm.get_state_from_array. rewrite I.
    apply (@state_from_items_short (pkeys (Asm.cur_state self)) [] [] state_array); auto.
  - rewrite I.
    pose proof (@update_from_array_short (pkeys (Asm.cur_state self)) [] []
                  (map snd (Asm.cur_state self)) state_array) as U.
    cbn [length app combine] in U. rewrite combine_keys_values in U.
    apply U; auto. unfold PyDict.keys. now rewrite !length_map.
Qed.

(** X5.  A parameter that several connections declare is seeded by the last of
    them: after one more connection, each of its parameters has the value
    that connection gives, every other parameter keeps its value, and the
    parameters already present keep their slots. *)
Theorem shared_parameter_takes_last_value (cons : list Con) (con : Con) (p : Param) :
  NoDup (pkeys (get_free_params con)) ->
  (In p (pkeys (get_free_params con)) ->
   PyDict.get Param_eq_dec (free_params_in_assembly (cons ++ [con])) p =
   PyDict.get Param_eq_dec (get_free_params con) p) /\
  (~ In p (pkeys (get_free_params con)) ->
   PyDict.get Param_eq_dec (free_params_in_assembly (cons ++ [con])) p =
   PyDict.get Param_eq_dec (free_params_in_assembly cons) p) /\
  exists added,
    pkeys (free_params_in_assembly (cons ++ [con])) =
    pkeys (free_params_in_assembly cons) ++ added.
Proof.
  intros N.
  assert (E : free_params_in_assembly (cons ++ [con]) =
              PyDict.update Param_eq_dec (free_params_in_assembly cons) (get_free_params con)).
  { unfold Asm.free_params_in_assembly. rewrite fold_left_app. reflexivity. }
  rewrite E. split; [|split].
  - intros I. rewrite dict_get_update by exact N.
    destruct (PyDict.get Param_eq_dec (get_free_params con) p) eqn:G; [reflexivity|].
    apply dict_get_None in G. contradiction.
  - intros NI. rewrite dict_get_update by exact N.
    apply (proj2 (dict_get_None Param_eq_dec _ _)) in NI. rewrite NI. reflexivity.
  - apply dict_update_prefix.
Qed.

End SolverState.

Lemma state_array_round_trip_witness :
  Asm.get_state_from_array Nat.eq_dec toy_assembly [7] = Ok [(0%nat, 7)] /\
  Asm.get_cur_state_array Nat.eq_dec (Asm.set_cur_state toy_assembly [(0%nat, 7)]) = Ok [7].
Proof.
  destruct (@state_array_round_trip nat Nat.eq_dec unit Toy.free_params toy_assembly [7]
              toy_assembly_well_formed eq_refl) as (A & _ & B & _).
  split; [exact A | exact B].
Defined.

Lemma short_array_is_written_in_part_witness :
  Asm.get_state_from_array Nat.eq_dec toy_assembly [] = Raise IndexError.
Proof.
  destruct (@short_array_is_written_in_part nat Nat.eq_dec unit Toy.free_params
              toy_assembly [] toy_assembly_well_formed) as (A & _).
  - cbn. lia.
  - exact A.
Defined.

Lemma shared_parameter_takes_last_value_witness :
  PyDict.get Nat.eq_dec
    (Asm.free_params_in_assembly Nat.eq_dec Toy.shared_params ([true] ++ [false])) 1%nat =
  PyDict.get Nat.eq_dec (Toy.shared_params false) 1%nat.
Proof.
  destruct (@shared_parameter_takes_last_value nat Nat.eq_dec bool Toy.shared_params
              [true] false 1%nat) as (A & _).
  - cbn. repeat constructor; cbn; intuition discriminate.
  - apply A. cbn. auto.
Defined.

(* ================================================================= *)
(** ** The gradient of the objective *)

Section SolverGradient.
Variable Param : Type.
Variable Param_eq_dec : forall a b : Param, {a = b} + {a <> b}.
Variable Con : Type.
Variable get_free_params : Con -> list (Param * Q).
Variable get_constraint_prime : Con -> list Q -> list (Param * Q).

#[local] Abbreviation free_params_in_assembly :=
  (Asm.free_params_in_assembly Param_eq_dec get_free_params).
#[local] Abbreviation build_param_index :=
  (Asm.build_param_index Param_eq_dec get_free_params).
#[local] Abbreviation pkeys := (@PyDict.keys Param Q).
#[local] Abbreviation slots := (@Asm.slots Param).
#[local] Abbreviation grad_value := (Asm.grad_value Param_eq_dec).
#[local] Abbreviation accumulate_gradient := (Asm.accumulate_gradient Param_eq_dec).
#[local] Abbreviation collect_gradients :=
  (Asm.collect_gradients Param_eq_dec get_free_params get_constraint_prime).
#[local] Abbreviation order_gradient := (Asm.order_gradient Param_eq_dec).
#[local] Abbreviation assembly_const_deriv :=
  (Asm.assembly_const_deriv Param_eq_dec get_free_params get_constraint_prime).
#[local] Abbreviation slot_value := (Asm.slot_value Param_eq_dec).
#[local] Abbreviation joint_gradient :=
  (Asm.joint_gradient Param_eq_dec get_free_params get_constraint_prime).

Lemma grad_value_set (d : list (Param * Q)) (k p : Param) (v : Q) :
  grad_value (PyDict.set Param_eq_dec d k v) p =
  if Param_eq_dec k p then v else grad_value d p.
Proof.
  unfold Asm.grad_value. rewrite dict_get_set.
  destruct (Param_eq_dec k p); reflexivity.
Qed.

Lemma grad_value_absent (d : list (Param * Q)) (p : Param) :
  ~ In p (pkeys d) -> grad_value d p = 0.
Proof.
  intros NI. unfold Asm.grad_value.
  apply (proj2 (dict_get_None Param_eq_dec _ _)) in NI. now rewrite NI.
Qed.

Lemma accumulate_keys (g joint : list (Param * Q)) :
  NoDup (pkeys joint) ->
  NoDup (pkeys (accumulate_gradient joint g)) /\
  forall p, In p (pkeys (accumulate_gradient joint g)) <-> In p (pkeys joint) \/ In p (pkeys g).
Proof.
  unfold Asm.accumulate_gradient. revert joint.
  induction g as [|[k v] g IH]; intros joint N; cbn [fold_left fst snd].
  - split; [exact N|]. intros p. cbn. tauto.
  - destruct (IH (PyDict.set Param_eq_dec joint k (grad_value joint k + v))) as (A & B).
    { apply dict_set_NoDup, N. }
    split; [exact A|]. intros p. rewrite B. cbn [PyDict.keys map fst].
    destruct (dict_keys_set_incl Param_eq_dec joint k (grad_value joint k + v)) as (I1 & I2).
    split.
    + intros [I|I].
      * apply dict_keys_set_in in I. destruct I as [->|I].
        -- right. left. reflexivity.
        -- left. exact I.
      * right. right. exact I.
    + intros [I|[E|I]].
      * left. apply I1, I.
      * left. subst p. exact I2.
      * right. exact I.
Qed.

Lemma grad_value_cons (g : list (Param * Q)) (k p : Param) (v : Q) :
  grad_value ((k, v) :: g) p = if Param_eq_dec k p then v else grad_value g p.
Proof.
  unfold Asm.grad_value. cbn [PyDict.get]. destruct (Param_eq_dec k p); reflexivity.
Qed.

Lemma accumulate_value (g joint : list (Param * Q)) (p : Param) :
  NoDup (pkeys g) ->
  grad_value (accumulate_gradient joint g) p == grad_value joint p + grad_value g p.
Proof.
  unfold Asm.accumulate_gradient. revert joint.
  induction g as [|[k v] g IH]; intros joint N; cbn [fold_left fst snd].
  - rewrite (grad_value_absent [] p) by (intros []). ring.
  - inversion N as [|? ? NI N']; subst. rewrite IH by exact N'.
    rewrite grad_value_set, grad_value_cons.
    destruct (Param_eq_dec k p) as [->|NE].
    + rewrite (grad_value_absent g p NI). ring.
    + ring.
Qed.

Lemma collect_gradients_total (ks : list Param) (x : list Q) (cons : list Con)
    (joint : list (Param * Q)) :
  (length ks <= length x)%nat ->
  (forall con, In con cons -> incl (pkeys (get_free_params con)) ks) ->
  collect_gradients (slots 0 ks) x cons joint = Ok (joint_gradient (slots 0 ks) x cons joint).
Proof.
  intros L. revert joint. induction cons as [|con cons IH]; intros joint C; cbn.
  - reflexivity.
  - unfold Asm.constraint_args.
    rewrite (mapM_total _ (slot_value (slots 0 ks) x)).
    + cbn [bind]. apply IH. intros c I. apply C. right. exact I.
    + intros p I. apply select_slot; [exact L|].
      apply (C con); [left; reflexivity | exact I].
Qed.

Lemma joint_gradient_keys (index : list (Param * nat)) (x : list Q) (cons : list Con)
    (joint : list (Param * Q)) :
  NoDup (pkeys joint) ->
  NoDup (pkeys (joint_gradient index x cons joint)) /\
  forall p, In p (pkeys (joint_gradient index x cons joint)) <->
            In p (pkeys joint) \/
            exists con, In con cons /\
              In p (pkeys (get_constraint_prime con
                             (map (slot_value index x) (pkeys (get_free_params con))))).
Proof.
  unfold Asm.joint_gradient. revert joint.
  induction cons as [|con cons IH]; intros joint N; cbn [fold_left].
  - split; [exact N|]. intros p. split; [auto|]. intros [I|(c & [] & _)]. exact I.
  - destruct (@accumulate_keys
                (get_constraint_prime con
                   (map (slot_value index x) (pkeys (get_free_params con)))) joint N)
      as (A & B).
    destruct (IH _ A) as (C & D). split; [exact C|].
    intros p. rewrite D, B. split.
    + intros [[I|I]|(c & I & J)]; auto.
      * right. exists con. split; [left; reflexivity | exact I].
      * right. exists c. split; [right; exact I | exact J].
    + intros [I|(c & [<-|I] & J)]; auto. right. exists c. auto.
Qed.

Lemma joint_gradient_value (index : list (Param * nat)) (x : list Q) (cons : list Con)
    (joint : list (Param * Q)) (p : Param) :
  (forall con args, NoDup (pkeys (get_constraint_prime con args))) ->
  grad_value (joint_gradient index x cons joint) p ==
  grad_value joint p +
  Asm.Qsum (map (fun con =>
                   grad_value
                     (get_constraint_prime con
                        (map (slot_value index x) (pkeys (get_free_params con)))) p)
              cons).
Proof.
  intros ND. unfold Asm.joint_gradient. revert joint.
  induction cons as [|con cons IH]; intros joint; cbn [fold_left map].
  - unfold Asm.Qsum. cbn [fold_right]. ring.
  - rewrite IH, accumulate_value by apply ND. rewrite Qsum_cons. ring.
Qed.

Lemma array_set_spec (result : list Q) (i : nat) (v : Q) :
  (i < length result)%nat ->
  exists result',
    Asm.array_set result i v = Ok result' /\
    length result' = length result /\
    nth_error result' i = Some v /\
    forall j, j <> i -> nth_error result' j = nth_error result j.
Proof.
  revert i. induction result as [|r result IH]; intros i L; [cbn in L; lia|].
  destruct i as [|i]; cbn [Asm.array_set].
  - eexists. split; [reflexivity|]. split; [reflexivity|]. split; [reflexivity|].
    intros [|j] NE; [contradiction | reflexivity].
  - destruct (IH i) as (r' & E & A & B & C); [cbn in L; lia|].
    rewrite E. cbn [bind]. eexists. split; [reflexivity|].
    split; [cbn; lia|]. split; [exact B|].
    intros [|j] NE; [reflexivity|]. cbn. apply C. lia.
Qed.

Lemma order_gradient_spec (index : list (Param * nat)) (items : list (Param * Q))
    (result : list Q) :
  NoDup (pkeys items) ->
  (forall k, In k (pkeys items) ->
     exists i, PyDict.get Param_eq_dec index k = Some i /\ (i < length result)%nat) ->
  (forall p q i, PyDict.get Param_eq_dec index p = Some i ->
                 PyDict.get Param_eq_dec index q = Some i -> p = q) ->
  exists result',
    order_gradient index items result = Ok result' /\
    length result' = length result /\
    forall k v i, In (k, v) items -> PyDict.get Param_eq_dec index k = Some i ->
                  nth_error result' i = Some v.
Proof.
  intros N R Inj.
  assert (G : exists result',
    order_gradient index items result = Ok result' /\
    length result' = length result /\
    (forall k v i, In (k, v) items -> PyDict.get Param_eq_dec index k = Some i ->
                   nth_error result' i = Some v) /\
    (forall i, (forall k, In k (pkeys items) -> PyDict.get Param_eq_dec index k <> Some i) ->
               nth_error result' i = nth_error result i)).
  { revert result R. induction items as [|[k v] items IH]; intros result R.
    - exists result. cbn. split; [reflexivity|]. split; [reflexivity|].
      split; [intros ? ? ? []|reflexivity].
    - inversion N as [|? ? NI N']; subst.
      destruct (R k (or_introl eq_refl)) as (i & Gi & Li).
      cbn [Asm.order_gradient]. rewrite Gi.
      destruct (array_set_spec result v Li) as (r1 & E1 & A1 & B1 & C1).
      rewrite E1. cbn [bind].
      destruct (IH N' r1) as (r2 & E2 & A2 & B2 & C2).
      { intros k' I'. destruct (R k' (or_intror I')) as (i' & G' & L').
        exists i'. split; [exact G' | lia]. }
      exists r2. split; [exact E2|]. split; [lia|]. split.
      + intros k' v' i' [[= <- <-]|I'] G'.
        * assert (i' = i) by congruence. subst i'.
          rewrite C2; [exact B1|].
          intros k'' I'' G''. apply NI.
          rewrite (Inj k k'' i Gi G''). exact I''.
        * apply (B2 k' v' i' I' G').
      + intros j F. rewrite C2.
        * apply C1. intros ->. apply (F k); [left; reflexivity | exact Gi].
        * intros k' I'. apply F. right. exact I'. }
  destruct G as (r & A & B & C & _). exists r. auto.
Qed.

Lemma dict_get_in (d : list (Param * Q)) (p : Param) :
  In p (pkeys d) -> In (p, grad_value d p) d.
Proof.
  unfold Asm.grad_value. induction d as [|[k v] d IH]; cbn; [intros []|].
  intros I. destruct (Param_eq_dec k p) as [->|NE]; [left; reflexivity|].
  right. apply IH. destruct I as [E|I]; [contradiction | exact I].
Qed.

(** X6.  The gradient that [get_assembly_constraints_deriv] builds.  When every
    connection reports a partial derivative for exactly its free parameters,
    then on a vector with an entry for each slot the result is an array
    with one entry per parameter, and the entry at the slot of a parameter
    is the sum, over the connections, of the partial derivatives reported
    for it.  The array is as long as the dictionary of reported gradients,
    not as the index: when no connection reports anything it is empty. *)
Theorem gradient_sums_per_slot (cons : list Con) (x : list Q) :
  let index := build_param_index cons in
  let n := length (pkeys (free_params_in_assembly cons)) in
  (n <= length x)%nat ->
  ((forall con args p, In p (pkeys (get_constraint_prime con args)) <->
                       In p (pkeys (get_free_params con))) ->
   (forall con args, NoDup (pkeys (get_constraint_prime con args))) ->
   exists gradient,
     assembly_const_deriv cons index x = Ok gradient /\
     length gradient = n /\
     forall p i, PyDict.get Param_eq_dec index p = Some i ->
       exists v, nth_error gradient i = Some v /\
                 v == Asm.gradient_sum Param_eq_dec get_free_params get_constraint_prime
                        cons index x p) /\
  ((forall con args, get_constraint_prime con args = []) ->
   assembly_const_deriv cons index x = Ok []).
Proof.
  intros index n L. unfold index. rewrite build_param_index_slots.
  set (ks := pkeys (free_params_in_assembly cons)) in *.
  assert (C : forall con, In con cons -> incl (pkeys (get_free_params con)) ks).
  { intros con I. apply free_params_cover, I. }
  pose proof (free_params_NoDup Param_eq_dec get_free_params cons) as N. fold ks in N.
  unfold Asm.assembly_const_deriv.
  rewrite (@collect_gradients_total ks x cons [] L C). cbn [bind].
  set (J := joint_gradient (slots 0 ks) x cons []).
  split.
  - intros H ND.
    destruct (@joint_gradient_keys (slots 0 ks) x cons []) as (NJ & KJ); [constructor|].
    fold J in NJ, KJ.
    assert (Same : forall p, In p (pkeys J) <-> In p ks).
    { intros p. rewrite KJ. split.
      - intros [[]|(con & I & G)]. apply H in G. apply (C con I), G.
      - intros I. right.
        destruct (free_params_from_connections Param_eq_dec get_free_params cons p I)
          as (con & A & B).
        exists con. split; [exact A|]. apply H, B. }
    assert (LJ : length J = length ks).
    { assert (E : length (pkeys J) = length ks).
      { apply Nat.le_antisymm; apply NoDup_incl_length; try assumption;
          intros p I; apply Same; exact I. }
      unfold PyDict.keys in E. rewrite length_map in E. exact E. }
    destruct (@order_gradient_spec (slots 0 ks) J (repeat 0 (length J))) as (g & E & LG & V).
    + exact NJ.
    + intros k I. apply Same in I.
      destruct (slots_get Param_eq_dec ks 0 k I) as (i & G & B).
      exists i. split; [exact G|]. rewrite repeat_length. lia.
    + intros p q i G1 G2. apply slots_get_nth in G1, G2.
      destruct G1 as [_ G1], G2 as [_ G2]. congruence.
    + exists g. split; [exact E|]. split; [rewrite LG, repeat_length; exact LJ|].
      intros p i G. exists (grad_value J p). split.
      * apply (V p (grad_value J p) i); [|exact G].
        apply dict_get_in, Same.
        apply slots_get_nth in G. destruct G as [_ G]. eapply nth_error_In. exact G.
      * unfold J. rewrite joint_gradient_value by exact ND.
        unfold Asm.gradient_sum. rewrite (grad_value_absent [] p) by (intros []). ring.
  - intros Empty.
    assert (E : forall idx l j, joint_gradient idx x l j = j).
    { intros idx l. unfold Asm.joint_gradient.
      induction l as [|c l IH]; intros j; [reflexivity|].
      cbn [fold_left]. rewrite Empty. apply IH. }
    unfold J. rewrite E. reflexivity.
Qed.

End SolverGradient.

Lemma gradient_sums_per_slot_witness :
  exists gradient,
    Asm.assembly_const_deriv Nat.eq_dec Toy.shared_params Toy.shared_gradient
      [true; false] (Asm.build_param_index Nat.eq_dec Toy.shared_params [true; false])
      [1; 1] = Ok gradient /\
    length gradient = 2%nat.
Proof.
  destruct (@gradient_sums_per_slot nat Nat.eq_dec bool Toy.shared_params
              Toy.shared_gradient [true; false] [1; 1]) as (A & _).
  - vm_compute. lia.
  - destruct A as (g & E & L & _).
    + intros [] args p; cbn; tauto.
    + intros [] args; cbn; repeat constructor; cbn; intuition discriminate.
    + exists g. split; [exact E | exact L].
Defined.

Lemma objective_reads_indexed_slots_witness :
  Asm.assembly_const Nat.eq_dec Toy.shared_params Toy.shared_constraint [true; false]
    (Asm.build_param_index Nat.eq_dec Toy.shared_params [true; false]) [1] =
  Raise IndexError.
Proof.
  apply (proj1 (@objective_reads_indexed_slots nat Nat.eq_dec bool Toy.shared_params
                  Toy.shared_constraint [true; false] [1])).
  vm_compute. lia.
Defined.

(* ================================================================= *)
(** ** How a construction ends *)

(** X7.  With a minimizer whose result has the shape of the seed, the
    constructor of [Assembly] has two outcomes: it raises the exception
    "assembly failed to init", exactly when the minimizer reports failure,
    and no other exception; or it returns an assembly that holds the
    connections, components and settings it was given, has the parameters
    of the connections as the keys of its state, carries the value of the
    class counter as its id, and leaves the counter one higher. *)
Theorem construction_outcomes :
  forall (Param : Type) (Param_eq_dec : forall a b : Param, {a = b} + {a <> b})
         (Con : Type) (get_free_params : Con -> list (Param * Q))
         (get_constraint : Con -> list Q -> list Q)
         (minimize : (list Q -> Outcome Q) -> list Q -> OptimizeResult)
         (cons : list Con) (comps : list Component) (iters : nat) (tol : Q) (plot : bool)
         (id_counter : nat),
    Asm.shape_preserving minimize ->
    let res := minimize
                 (Asm.assembly_const Param_eq_dec get_free_params get_constraint cons
                    (Asm.build_param_index Param_eq_dec get_free_params cons))
                 (map snd (Asm.free_params_in_assembly Param_eq_dec get_free_params cons)) in
    let outcome := Asm.init Param_eq_dec get_free_params get_constraint minimize
                     cons comps iters tol plot id_counter in
    (outcome = Raise AssemblyFailedToInit <-> success res = false) /\
    (forall e, outcome = Raise e -> e = AssemblyFailedToInit) /\
    outcome <> OutOfFuel /\
    (forall self id_counter', outcome = Ok (self, id_counter') ->
       Asm.id self = id_counter /\ id_counter' = S id_counter /\
       Asm.con_list self = cons /\ Asm.components self = comps /\
       Asm.iterations self = iters /\ Asm.plot_newt self = plot /\
       Asm.param_index self = Asm.build_param_index Param_eq_dec get_free_params cons /\
       PyDict.keys (Asm.cur_state self) =
       PyDict.keys (Asm.free_params_in_assembly Param_eq_dec get_free_params cons)).
Proof.
  intros Param Param_eq_dec Con get_free_params get_constraint minimize
         cons comps iters tol plot id_counter S res outcome.
  pose proof (init_spec Param_eq_dec get_free_params get_constraint
                cons comps iters tol plot id_counter S) as I.
  cbv zeta in I. fold res in I. fold outcome in I. rewrite I.
  assert (L : length (PyDict.keys
                (Asm.free_params_in_assembly Param_eq_dec get_free_params cons)) =
              length (res_x res)).
  { unfold res. rewrite S. unfold PyDict.keys. now rewrite !length_map. }
  destruct (success res).
  - split; [split; discriminate|]. split; [discriminate|]. split; [discriminate|].
    intros self idc [= <- <-]. cbn. repeat split.
    unfold PyDict.keys at 1. apply keys_combine, L.
  - split; [split; reflexivity|]. split; [intros e [= <-]; reflexivity|].
    split; discriminate.
Qed.

Lemma construction_outcomes_witness :
  Asm.init Nat.eq_dec Toy.free_params Toy.constraint Toy.minimize_fails
    [tt] [] Asm.default_iters Asm.default_tol false 0 = Raise AssemblyFailedToInit.
Proof.
  apply (proj1 (@construction_outcomes nat Nat.eq_dec unit Toy.free_params Toy.constraint
                  Toy.minimize_fails [tt] [] Asm.default_iters Asm.default_tol false 0%nat
                  minimize_fails_shape)).
  reflexivity.
Defined.
